(** * The seed script of the food-ordering app: model and verification

    The repository has one piece of logic, [app/lib/seed]: a script, run
    from the "Seed" button of the search tab, that empties four
    collections and a storage bucket of a remote store and creates them
    again from a bundled dataset.  This file embeds that script and the
    button handler, function by function, in a small monad for
    asynchronous code, together with a model of the remote store the
    script talks to, and proves the properties the specification
    states about them. *)

From Stdlib Require Import QArith Ascii String.
From stdpp Require Import base strings gmap list pretty.

Open Scope string_scope.
Open Scope list_scope.
Open Scope nat_scope.

(** ** The dataset ([interface Category], [Customization], [MenuItem],
       [DummyData]) *)

(** A JavaScript [number] is only carried from the dataset to the store,
    never computed with: a rational stands for it. *)
Abbreviation number := Q.

(** Identifiers of stored records.  [ID.unique()] is modelled by a
    counter of the client (see [ID_unique]). *)
Abbreviation ID := nat.

Module Category.
Record t := mk { name : string; description : string }.
End Category.

Module Customization.
Record t := mk { name : string; price : number; type : string }.
End Customization.

Module MenuItem.
Record t := mk {
  name : string;
  description : string;
  image_url : string;
  price : number;
  rating : number;
  calories : number;
  protein : number;
  category_name : string;
  customizations : list string
}.
End MenuItem.

Record DummyData := mkData {
  categories : list Category.t;
  customizations : list Customization.t;
  menu : list MenuItem.t
}.

(** ** What is sent to, and kept by, the remote store *)

(** The four collections of [appwriteConfig]. *)
Inductive Collection :=
| categoriesCollectionId
| customizationsCollectionId
| menuCollectionId
| menuCustomizationsCollectionId.

#[global] Instance Collection_eq_dec : EqDecision Collection.
Proof. solve_decision. Defined.

(** The value of [image_url] in a menu document: the placeholder string
    literal, or what [storage.getFileViewURL] gives for an uploaded
    file. *)
Inductive ImageRef :=
| UrlString (s : string)
| FileViewURL (fileId : ID).

(** What reading a key of [categoryMap] or [customizationMap] gives.
    The two maps are plain objects ([{}], lines 108 and 124): a key the
    object holds gives the identifier assigned to it; a key it does not
    hold gives what [Object.prototype] has under that name, when it has
    something (a function for ["toString"] or ["constructor"], the
    prototype itself for ["__proto__"]), and [undefined] otherwise. *)
Inductive Ref :=
| Undefined
| Id (id : ID)
| Inherited (key : string).

(** The object literal of lines 148-157.  [categories] is
    [categoryMap[item.category_name]]. *)
Module MenuDoc.
Record t := mk {
  name : string;
  description : string;
  image_url : ImageRef;
  price : number;
  rating : number;
  calories : number;
  protein : number;
  categories : Ref
}.
End MenuDoc.

(** The object literal of lines 167-170.  [customizations] is
    [customizationMap[cusName]]. *)
Module JoinDoc.
Record t := mk { menu : ID; customizations : Ref }.
End JoinDoc.

Inductive Payload :=
| CategoryData (cat : Category.t)
| CustomizationData (cus : Customization.t)
| MenuData (m : MenuDoc.t)
| JoinData (j : JoinDoc.t).

(** A stored document; [doc_id] is the field [$id]. *)
Record Doc := mkDoc { doc_id : ID; doc_data : Payload }.

(** The descriptor of lines 76-81 and the stored file ([file_id] is
    [$id]). *)
Record FileInput := mkFileInput {
  file_name : string;
  file_type : string;
  file_size : N;
  file_uri : string
}.

Record File := mkFile { file_id : ID; file_input : FileInput }.

Record Blob := mkBlob { blob_type : string; blob_size : N }.

Record Response := mkResponse { ok : bool; response_url : string }.

(** A thrown value, with the three fields the button handler prints.  An
    [AppwriteException] has a numeric [code] and a [type]; the [Error] of
    line 70 and a network failure have neither. *)
Module Error.
Record t := mk { code : option Z; type : option string; message : string }.
End Error.

(** What the store answers to the deletion of a record it does not have. *)
Definition not_found : Error.t :=
  Error.mk (Some 404%Z) (Some "document_not_found") "not found".

(** The requests the script sends. *)
Inductive Request :=
| ListDocuments (c : Collection)
| CreateDocument (c : Collection) (id : ID) (p : Payload)
| DeleteDocument (c : Collection) (id : ID)
| ListFiles
| CreateFile (id : ID) (f : FileInput)
| DeleteFile (id : ID)
| Fetch (url : string)
| ReadBlob (url : string).

(** Every [console.log] and [console.warn] of the two source files. *)
Inductive LogEntry :=
| AlreadyRunning
| Clearing
| FailedCategory (name : string) (err : Error.t)
| FailedCustomization (name : string) (err : Error.t)
| FailedMenuCustomization (item cusName : string) (err : Error.t)
| FailedMenuItem (name : string) (err : Error.t)
| UploadFailed (imageUrl : string) (err : Error.t)
| SeedingComplete
| SeedError (err : Error.t)
| FailedToSeed (err : Error.t)
| PrintCode (c : option Z)
| PrintType (t : option string)
| PrintMessage (m : string)
| PrintRaw (err : Error.t).

(** ** The environment

    The remote store, the image host and the network are not code of
    this repository.  Their part in a run is an [Env]: for every moment
    ([tick], the number of responses received so far) and every request,
    what happens to the request. *)

Inductive Fate :=
| Settle               (* the request is served *)
| Reject (e : Error.t)   (* the request fails with [e] *)
| Hang.                (* no response ever comes *)

Record Answer := mkAnswer {
  fate : Fate;
  page : option nat;   (* a listing: [Some k] cuts it to [k] records *)
  http_ok : bool;      (* a fetch: [response.ok] *)
  body : Blob          (* [response.blob()] *)
}.

Record Env := mkEnv {
  oracle : nat -> Request -> Answer;
  schedule : nat -> nat;   (* which request in flight is answered next *)
  clock : nat -> N         (* [Date.now()] *)
}.

(** ** The state of a run *)

Record World := mkWorld {
  documents : Collection -> list Doc;
  files : list File;
  isSeeding : bool;            (* [let isSeeding = false], line 37 *)
  console : list LogEntry;
  nextId : ID;
  tick : nat;
  requests : list Request;     (* every request sent, oldest first *)
  inflight : list Request      (* deletes of the last bulk clear that
                                  had not settled when it completed *)
}.

Definition set_documents (c : Collection) (l : list Doc) (w : World) : World :=
  mkWorld (fun c' => if decide (c' = c) then l else documents w c')
          (files w) (isSeeding w) (console w) (nextId w) (tick w)
          (requests w) (inflight w).

Definition set_files (l : list File) (w : World) : World :=
  mkWorld (documents w) l (isSeeding w) (console w) (nextId w) (tick w)
          (requests w) (inflight w).

Definition set_isSeeding (b : bool) (w : World) : World :=
  mkWorld (documents w) (files w) b (console w) (nextId w) (tick w)
          (requests w) (inflight w).

Definition set_console (l : list LogEntry) (w : World) : World :=
  mkWorld (documents w) (files w) (isSeeding w) l (nextId w) (tick w)
          (requests w) (inflight w).

Definition set_nextId (n : ID) (w : World) : World :=
  mkWorld (documents w) (files w) (isSeeding w) (console w) n (tick w)
          (requests w) (inflight w).

Definition set_tick (n : nat) (w : World) : World :=
  mkWorld (documents w) (files w) (isSeeding w) (console w) (nextId w) n
          (requests w) (inflight w).

Definition set_requests (l : list Request) (w : World) : World :=
  mkWorld (documents w) (files w) (isSeeding w) (console w) (nextId w)
          (tick w) l (inflight w).

Definition set_inflight (l : list Request) (w : World) : World :=
  mkWorld (documents w) (files w) (isSeeding w) (console w) (nextId w)
          (tick w) (requests w) l.

(** ** Plain objects used as maps

    [const categoryMap: Record<string, string> = {}]: the keys the
    object holds itself, with their values, are a finite map; what it
    does not hold it inherits from [Object.prototype]. *)

(** The names of the properties of [Object.prototype] (ECMAScript,
    20.1.3 and B.2.2.1). *)
Definition Object_prototype : list string :=
  ["constructor"; "hasOwnProperty"; "isPrototypeOf"; "propertyIsEnumerable";
   "toLocaleString"; "toString"; "valueOf"; "__proto__";
   "__defineGetter__"; "__defineSetter__";
   "__lookupGetter__"; "__lookupSetter__"].

(** [map[key] = id].  The object comes to hold [key], also when it
    inherits a property of that name, except for ["__proto__"]: that one
    is a setter of [Object.prototype], which does nothing when given a
    string. *)
Definition assign (map : gmap string ID) (key : string) (id : ID)
  : gmap string ID :=
  if decide (key = "__proto__") then map else <[key := id]> map.

(** [map[key]] *)
Definition read (map : gmap string ID) (key : string) : Ref :=
  match map !! key with
  | Some id => Id id
  | None =>
      if decide (key ∈ Object_prototype) then Inherited key else Undefined
  end.

(** ** Asynchronous computations

    An [async] function, run until it can go no further: it has
    returned, it has thrown, or it is suspended at an [await] whose
    promise has not settled.  A run is observed at any one of its
    [await]s, that is in progress, by taking an environment that leaves
    the request of that [await] unanswered: the world it is suspended in
    is the same whether an answer comes later or not. *)

Inductive Outcome (A : Type) :=
| Returned (a : A)
| Thrown (e : Error.t)
| Pending.
Arguments Returned {A} a.
Arguments Thrown {A} e.
Arguments Pending {A}.

Definition Async (A : Type) : Type := World -> Outcome A * World.

Definition ret {A} (a : A) : Async A := fun w => (Returned a, w).

Definition throw {A} (e : Error.t) : Async A := fun w => (Thrown e, w).

Definition bind {A B} (m : Async A) (k : A -> Async B) : Async B :=
  fun w =>
    match m w with
    | (Returned a, w') => k a w'
    | (Thrown e, w') => (Thrown e, w')
    | (Pending, w') => (Pending, w')
    end.

Notation "x <- m ; k" := (bind m (fun x => k))
  (at level 100, m at next level, right associativity).
Notation "m ;; k" := (bind m (fun _ => k))
  (at level 100, right associativity).

(** [try { m } catch (err) { h err }] *)
Definition tryCatch {A} (m : Async A) (h : Error.t -> Async A) : Async A :=
  fun w =>
    match m w with
    | (Thrown e, w') => h e w'
    | r => r
    end.

(** [try { m } finally { f }]: [f] runs when [m] returns or throws, and
    not while [m] is suspended. *)
Definition tryFinally {A} (m : Async A) (f : Async unit) : Async A :=
  fun w =>
    match m w with
    | (Returned a, w') => (_ <- f; ret a) w'
    | (Thrown e, w') => (_ <- f; throw e) w'
    | (Pending, w') => (Pending, w')
    end.

(** [for (const x of l) { ... }], the loop's variables in [s]. *)
Fixpoint forOf {A S} (l : list A) (body : S -> A -> Async S) (s : S)
  : Async S :=
  match l with
  | [] => ret s
  | x :: l' => s' <- body s x; forOf l' body s'
  end.

Definition log (e : LogEntry) : Async unit :=
  fun w => (Returned tt, set_console (console w ++ [e]) w).

(** [ID.unique()] *)
Definition ID_unique : Async ID :=
  fun w => (Returned (nextId w), set_nextId (S (nextId w)) w).

(** ** The remote store, as the script sees it

    [react-native-appwrite] and [fetch] are outside the repository.
    The model is the one of the specification's section 6: a store of
    documents per collection and of files, with create, list and delete,
    and a not-found error (code 404) for the deletion of a record that is
    not there.  Every call sends one request and is suspended until the
    request settles.  A request that is served does what it asks: a
    creation adds the record under the identifier it was given and
    returns it, a listing returns the records of the collection (all of
    them, or the first [k] when the environment pages it), a deletion
    removes the record.  Every other behaviour of the store (a refusal,
    a conflict, a lost connection, no answer at all) is a [Reject] or a
    [Hang] of the environment. *)

Section Run.

Variable env : Env.

(** The synchronous part of a call: the request leaves. *)
Definition issue (r : Request) : Async unit :=
  fun w => (Returned tt, set_requests (requests w ++ [r]) w).

(** The [await]: the environment decides the request's fate. *)
Definition settle (r : Request) : Async Answer :=
  fun w =>
    let a := oracle env (tick w) r in
    let w' := set_tick (S (tick w)) w in
    match fate a with
    | Settle => (Returned a, w')
    | Reject e => (Thrown e, w')
    | Hang => (Pending, w')
    end.

Definition cut {A} (p : option nat) (l : list A) : list A :=
  match p with
  | Some k => take k l
  | None => l
  end.

(** [databases.listDocuments(databaseId, c)]; the result is
    [list.documents]. *)
Definition listDocuments (c : Collection) : Async (list Doc) :=
  issue (ListDocuments c);;
  a <- settle (ListDocuments c);
  fun w => (Returned (cut (page a) (documents w c)), w).

(** [databases.createDocument(databaseId, c, id, p)] *)
Definition createDocument (c : Collection) (id : ID) (p : Payload) : Async Doc :=
  issue (CreateDocument c id p);;
  _ <- settle (CreateDocument c id p);
  fun w => (Returned (mkDoc id p),
            set_documents c (documents w c ++ [mkDoc id p]) w).

(** What the store does with a deletion it serves. *)
Definition remove (r : Request) : Async unit :=
  fun w =>
    match r with
    | DeleteDocument c id =>
        if decide (id ∈ doc_id <$> documents w c)
        then (Returned tt,
              set_documents c (filter (fun d => doc_id d ≠ id) (documents w c)) w)
        else (Thrown not_found, w)
    | DeleteFile id =>
        if decide (id ∈ file_id <$> files w)
        then (Returned tt,
              set_files (filter (fun f => file_id f ≠ id) (files w)) w)
        else (Thrown not_found, w)
    | _ => (Returned tt, w)
    end.

(** The rest of a deletion, from its [await] on. *)
Definition complete (r : Request) : Async unit :=
  _ <- settle r; remove r.

(** [databases.deleteDocument(databaseId, c, id)] *)
Definition deleteDocument (c : Collection) (id : ID) : Async unit :=
  issue (DeleteDocument c id);; complete (DeleteDocument c id).

(** [storage.listFiles(bucketId)]; the result is [list.files]. *)
Definition listFiles : Async (list File) :=
  issue ListFiles;;
  a <- settle ListFiles;
  fun w => (Returned (cut (page a) (files w)), w).

(** [storage.createFile(bucketId, id, f)] *)
Definition createFile (id : ID) (f : FileInput) : Async File :=
  issue (CreateFile id f);;
  _ <- settle (CreateFile id f);
  fun w => (Returned (mkFile id f), set_files (files w ++ [mkFile id f]) w).

(** [storage.deleteFile(bucketId, id)] *)
Definition deleteFile (id : ID) : Async unit :=
  issue (DeleteFile id);; complete (DeleteFile id).

(** [storage.getFileViewURL(bucketId, fileId)] builds a URL and sends
    nothing. *)
Definition getFileViewURL (fileId : ID) : ImageRef := FileViewURL fileId.

(** [fetch(url)] *)
Definition fetch (url : string) : Async Response :=
  issue (Fetch url);;
  a <- settle (Fetch url);
  ret (mkResponse (http_ok a) url).

(** [response.blob()] *)
Definition blob (response : Response) : Async Blob :=
  issue (ReadBlob (response_url response));;
  a <- settle (ReadBlob (response_url response));
  ret (body a).

(** [Date.now()] *)
Definition Date_now : Async N :=
  fun w => (Returned (clock env (tick w)), w).

(** [Promise.all] over calls that are each suspended at their one
    [await].  The requests in [flying] have left; they settle one at a
    time, in the order the environment chooses ([schedule]), and each
    settled call is resumed by [resume].  The promise is fulfilled when
    every call has returned, and rejected the moment one call throws,
    the others still in flight; a call whose request hangs keeps it
    pending unless another one throws.  [inflight] records the requests
    that had not settled when the promise did; what becomes of them
    later is not followed. *)
Fixpoint awaitAll (resume : Request -> Async unit) (n : nat)
    (flying stalled : list Request) : Async unit :=
  fun w =>
    match n, flying with
    | S n', r0 :: _ =>
        let i := schedule env (tick w) `mod` length flying in
        let r := nth i flying r0 in
        match resume r w with
        | (Returned _, w') => awaitAll resume n' (delete i flying) stalled w'
        | (Thrown e, w') =>
            (Thrown e, set_inflight (delete i flying ++ stalled) w')
        | (Pending, w') =>
            awaitAll resume n' (delete i flying) (stalled ++ [r]) w'
        end
    | _, _ =>
        match flying ++ stalled with
        | [] => (Returned tt, set_inflight [] w)
        | rs => (Pending, set_inflight rs w)
        end
    end.

(** [Promise.all(l.map(x => f(x)))], for an [f] that sends the request
    [r] of each [x] and awaits it: [map] calls [f] on every element in
    turn, and each call runs to its [await], so that all the requests
    have left before any of them settles. *)
Definition promiseAll (resume : Request -> Async unit) (rs : list Request)
  : Async unit :=
  forOf rs (fun _ r => issue r) tt;;
  awaitAll resume (length rs) rs [].

(** ** [app/lib/seed] *)

(** [catch (err) { if (err.code !== 404) throw err; }] *)
Definition unless404 (err : Error.t) : Async unit :=
  if decide (Error.code err = Some 404%Z) then ret tt else throw err.

(** Lines 40-46. *)
Definition safeDeleteDocument (collectionId : Collection) (docId : ID)
  : Async unit :=
  tryCatch (deleteDocument collectionId docId) unless404.

(** Lines 53-59. *)
Definition safeDeleteFile (fileId : ID) : Async unit :=
  tryCatch (deleteFile fileId) unless404.

(** A safe deletion from its [await] on: what remains to run of
    [safeDeleteDocument] or [safeDeleteFile] once the request has left
    (see [safeDeleteDocument_split]). *)
Definition resumeSafeDelete (r : Request) : Async unit :=
  tryCatch (complete r) unless404.

(** Lines 48-51. *)
Definition clearAll (collectionId : Collection) : Async unit :=
  list <- listDocuments collectionId;
  promiseAll resumeSafeDelete
    ((fun doc => DeleteDocument collectionId (doc_id doc)) <$> list).

(** Lines 61-64. *)
Definition clearStorage : Async unit :=
  list <- listFiles;
  promiseAll resumeSafeDelete ((fun file => DeleteFile (file_id file)) <$> list).

(** [imageUrl.split("/").pop()]: what follows the last slash. *)
Fixpoint split_pop (acc s : string) : string :=
  match s with
  | "" => acc
  | String c s' =>
      if Ascii.eqb c "/"%char then split_pop "" s'
      else split_pop (acc +:+ String c "") s'
  end.

Definition placeholder : string := "https://via.placeholder.com/150".

(** Line 77: [imageUrl.split("/").pop() || `file-${Date.now()}.jpg`];
    the empty string is the one string that is falsy. *)
Definition fileName (imageUrl : string) : Async string :=
  if decide (split_pop "" imageUrl = "")
  then now <- Date_now; ret ("file-" +:+ pretty now +:+ ".jpg")
  else ret (split_pop "" imageUrl).

(** Lines 67-89. *)
Definition uploadImageToStorage (imageUrl : string) : Async ImageRef :=
  tryCatch
    (response <- fetch imageUrl;
     if negb (ok response)
     then throw (Error.mk None None "Failed to fetch image")
     else
       blob <- blob response;
       fileId <- ID_unique;
       name <- fileName imageUrl;
       file <- createFile fileId
                 (mkFileInput name (blob_type blob) (blob_size blob) imageUrl);
       ret (getFileViewURL (file_id file)))
    (fun err => log (UploadFailed imageUrl err);; ret (UrlString placeholder)).

(** [databases.createDocument(databaseId, c, ID.unique(), p)], the form
    of all four calls of [seed]. *)
Definition createUnique (c : Collection) (p : Payload) : Async Doc :=
  id <- ID_unique; createDocument c id p.

(** Lines 110-120, the body of the loop over [data.categories].
    [categoryMap] is the plain object of line 108, given as the keys it
    holds; line 117 is [assign]. *)
Definition seedCategory (categoryMap : gmap string ID) (cat : Category.t)
  : Async (gmap string ID) :=
  tryCatch
    (doc <- createUnique categoriesCollectionId (CategoryData cat);
     ret (assign categoryMap (Category.name cat) (doc_id doc)))
    (fun err => log (FailedCategory (Category.name cat) err);; ret categoryMap).

(** Lines 126-136, the body of the loop over [data.customizations]. *)
Definition seedCustomization (customizationMap : gmap string ID)
    (cus : Customization.t) : Async (gmap string ID) :=
  tryCatch
    (doc <- createUnique customizationsCollectionId (CustomizationData cus);
     ret (assign customizationMap (Customization.name cus) (doc_id doc)))
    (fun err =>
       log (FailedCustomization (Customization.name cus) err);;
       ret customizationMap).

(** Lines 162-174, the body of the loop over [item.customizations]. *)
Definition seedLink (customizationMap : gmap string ID) (item : MenuItem.t)
    (menuDoc : Doc) (_ : unit) (cusName : string) : Async unit :=
  tryCatch
    (_ <- createUnique menuCustomizationsCollectionId
            (JoinData (JoinDoc.mk (doc_id menuDoc)
                        (read customizationMap cusName)));
     ret tt)
    (fun err =>
       log (FailedMenuCustomization (MenuItem.name item) cusName err)).

(** The object literal of lines 148-157. *)
Definition menuFields (categoryMap : gmap string ID) (item : MenuItem.t)
    (uploadedImage : ImageRef) : MenuDoc.t :=
  MenuDoc.mk (MenuItem.name item) (MenuItem.description item) uploadedImage
    (MenuItem.price item) (MenuItem.rating item) (MenuItem.calories item)
    (MenuItem.protein item) (read categoryMap (MenuItem.category_name item)).

(** Lines 141-178, the body of the loop over [data.menu]. *)
Definition seedMenuItem (categoryMap customizationMap : gmap string ID)
    (_ : unit) (item : MenuItem.t) : Async unit :=
  tryCatch
    (uploadedImage <- uploadImageToStorage (MenuItem.image_url item);
     menuDoc <- createUnique menuCollectionId
                  (MenuData (menuFields categoryMap item uploadedImage));
     forOf (MenuItem.customizations item)
       (seedLink customizationMap item menuDoc) tt)
    (fun err => log (FailedMenuItem (MenuItem.name item) err)).

(** Lines 108-181: what follows the clearing inside the [try]. *)
Definition populate (data : DummyData) : Async unit :=
  categoryMap <- forOf (categories data) seedCategory ∅;
  customizationMap <- forOf (customizations data) seedCustomization ∅;
  forOf (menu data) (seedMenuItem categoryMap customizationMap) tt;;
  log SeedingComplete.

(** Lines 100-105. *)
Definition clear : Async unit :=
  log Clearing;;
  clearAll categoriesCollectionId;;
  clearAll customizationsCollectionId;;
  clearAll menuCollectionId;;
  clearAll menuCustomizationsCollectionId;;
  clearStorage.

(** Reading and assigning the module's variable [isSeeding]. *)
Definition read_isSeeding : Async bool :=
  fun w => (Returned (isSeeding w), w).

Definition assign_isSeeding (b : bool) : Async unit :=
  fun w => (Returned tt, set_isSeeding b w).

(** Lines 92-187.  [data] is the dataset of [./data]. *)
Definition seed (data : DummyData) : Async unit :=
  seeding <- read_isSeeding;
  if seeding : bool
  then log AlreadyRunning
  else
    assign_isSeeding true;;
    tryFinally
      (tryCatch (clear;; populate data) (fun err => log (SeedError err)))
      (assign_isSeeding false).

(** ** [app/(tabs)/search.tsx] *)

(** The [onPress] of the "Seed" button:
    [seed().catch((error) => { ... })]. *)
Definition onPress (data : DummyData) : Async unit :=
  tryCatch (seed data)
    (fun error =>
       log (FailedToSeed error);;
       log (PrintCode (Error.code error));;
       log (PrintType (Error.type error));;
       log (PrintMessage (Error.message error));;
       log (PrintRaw error)).

End Run.

(** * The vocabulary of the statements *)

(** ** Observations of a run *)

(** [keeps R m]: whatever [m] does, the world it ends in is related by
    [R] to the world it started in. *)
Definition keeps (R : relation World) {A} (m : Async A) : Prop :=
  ∀ w, R w (m w).2.

(** An observation [f] of the world has the same value before and
    after. *)
Definition same {A} (f : World → A) : relation World :=
  λ w w', f w' = f w.

(** The second world's store has no record that the first one lacks. *)
Definition shrinks : relation World :=
  λ w w', (∀ c, documents w' c ⊆ documents w c) ∧ files w' ⊆ files w.

(** [safe m]: no run of [m] ends with a thrown error. *)
Definition safe {A} (m : Async A) : Prop :=
  ∀ w e, (m w).1 ≠ Thrown e.

(** The record a deletion names is not in the store. *)
Definition absent (r : Request) (w : World) : Prop :=
  match r with
  | DeleteDocument c id => id ∉ doc_id <$> documents w c
  | DeleteFile id => id ∉ file_id <$> files w
  | _ => True
  end.

(** The deletions a bulk clear of collection [c] sends, and those of
    [clearStorage]. *)
Definition deletesFrom (c : Collection) (r : Request) : Prop :=
  ∃ id, r = DeleteDocument c id.

Definition deletesFile (r : Request) : Prop :=
  ∃ id, r = DeleteFile id.



(** ** The world after a request *)

(** The world after a request has been sent and answered, after a
    request for a document with a fresh identifier has been, and after
    the store has added the document. *)
Definition sent (q : Request) (w : World) : World :=
  set_tick (S (tick w)) (set_requests (requests w ++ [q]) w).

Definition asked (q : Request) (w : World) : World :=
  sent q (set_nextId (S (nextId w)) w).

Definition created (c : Collection) (p : Payload) (w : World) : World :=
  set_documents c (documents w c ++ [mkDoc (nextId w) p])
    (asked (CreateDocument c (nextId w) p) w).

(** The name [uploadImageToStorage] gives the file when the clock reads
    [clock env t], and the descriptor of the upload it sends when it is
    called in world [w]: the fetch is answered at tick [tick w], the
    body is read at the next tick, and the upload leaves at the one
    after. *)
Definition fileNameAt (env : Env) (imageUrl : string) (t : nat) : string :=
  if decide (split_pop "" imageUrl = "")
  then "file-" +:+ pretty (clock env t) +:+ ".jpg"
  else split_pop "" imageUrl.

Definition uploadOf (env : Env) (imageUrl : string) (w : World) : FileInput :=
  let b := body (oracle env (S (tick w)) (ReadBlob imageUrl)) in
  mkFileInput (fileNameAt env imageUrl (S (S (tick w))))
    (blob_type b) (blob_size b) imageUrl.

(** The request for the menu document of [item], sent from world [w1]
    with the image [img]. *)
Definition menuRequest (categoryMap : gmap string ID) (item : MenuItem.t)
    (img : ImageRef) (w1 : World) : Request :=
  CreateDocument menuCollectionId (nextId w1)
    (MenuData (menuFields categoryMap item img)).

(** The payload of the join record of [cusName] for the menu document
    [menuId] (lines 167-170). *)
Definition linkPayload (customizationMap : gmap string ID) (menuId : ID)
    (cusName : string) : Payload :=
  JoinData (JoinDoc.mk menuId (read customizationMap cusName)).

(** ** The three loops that create one document per element

    The loops over [data.categories], [data.customizations] and
    [item.customizations] have the same body: create a document for the
    element [x] with a fresh identifier; when that succeeds, update the
    loop's variable with the identifier; when it throws, warn and go on.
    [attempt] is that body ([seedCategory_attempt],
    [seedCustomization_attempt] and [seedLink_attempt] relate the three
    bodies of the script to it).  For a loop started at tick [t] with
    next identifier [first], [attemptRequests] is what it sends,
    [attemptDocs] what the store adds, and [attemptState] the loop's
    variable at the end. *)

Definition attempt {V A} (env : Env) (c : Collection) (pay : A → Payload)
    (upd : V → A → ID → V) (entry : A → Error.t → LogEntry)
  : V → A → Async V :=
  λ s x,
    tryCatch
      (doc <- createUnique env c (pay x); ret (upd s x (doc_id doc)))
      (λ err, log (entry x err);; ret s).

Fixpoint attemptRequests {A} (c : Collection) (pay : A → Payload)
    (first : ID) (l : list A) : list Request :=
  match l with
  | [] => []
  | x :: l' =>
      CreateDocument c first (pay x) :: attemptRequests c pay (S first) l'
  end.

(** The request [q], answered at tick [t], is served. *)
Definition served (env : Env) (t : nat) (q : Request) : bool :=
  match fate (oracle env t q) with
  | Settle => true
  | _ => false
  end.

Fixpoint attemptDocs {A} (env : Env) (c : Collection) (pay : A → Payload)
    (t : nat) (first : ID) (l : list A) : list Doc :=
  match l with
  | [] => []
  | x :: l' =>
      (if served env t (CreateDocument c first (pay x))
       then [mkDoc first (pay x)] else [])
      ++ attemptDocs env c pay (S t) (S first) l'
  end.

Fixpoint attemptState {V A} (env : Env) (c : Collection) (pay : A → Payload)
    (upd : V → A → ID → V) (t : nat) (first : ID) (l : list A) (s : V) : V :=
  match l with
  | [] => s
  | x :: l' =>
      attemptState env c pay upd (S t) (S first) l'
        (if served env t (CreateDocument c first (pay x))
         then upd s x first else s)
  end.

(** How a loop of [n] attempts on collection [c] changes the world. *)
Definition grown (c : Collection) (docs : list Doc) (reqs : list Request)
    (n : nat) (w w' : World) : Prop :=
  documents w' c = documents w c ++ docs ∧
  (∀ c', c' ≠ c → documents w' c' = documents w c') ∧
  files w' = files w ∧
  isSeeding w' = isSeeding w ∧
  nextId w' = nextId w + n ∧
  tick w' = tick w + n ∧
  requests w' = requests w ++ reqs ∧
  inflight w' = inflight w.

(** The number of join records a dataset asks for, and the number of
    records it asks for in each collection. *)
Definition linkCount (items : list MenuItem.t) : nat :=
  sum_list (length ∘ MenuItem.customizations <$> items).

Definition expected (data : DummyData) (c : Collection) : nat :=
  match c with
  | categoriesCollectionId => length (categories data)
  | customizationsCollectionId => length (customizations data)
  | menuCollectionId => length (menu data)
  | menuCustomizationsCollectionId => linkCount (menu data)
  end.

(** ** Properties of an environment *)

(** Every request gets an answer. *)
Definition responsive (env : Env) : Prop :=
  ∀ t q, fate (oracle env t q) ≠ Hang.

(** The store reports not-found only for records it does not have: no
    failure from elsewhere carries the code 404. *)
Definition honest404 (env : Env) : Prop :=
  ∀ t q e, fate (oracle env t q) = Reject e → Error.code e ≠ Some 404%Z.

(** The store serves every creation of a document in collection [c]. *)
Definition servedIn (env : Env) (c : Collection) : Prop :=
  ∀ t id p, fate (oracle env t (CreateDocument c id p)) = Settle.

(** Every request is served, and every listing is whole: its answer
    has all the records there are to list, not a first page of them. *)
Definition obliging (env : Env) : Prop :=
  ∀ t q, fate (oracle env t q) = Settle ∧ page (oracle env t q) = None.


(** ** Contracts *)

(** The contract of a safe deletion [guarded] of the remote deletion
    [raw] of a record, [gone] saying that the record is not in the
    store. *)
Definition safeDeletion (raw guarded : Async unit) (gone : World → Prop)
    (w : World) : Prop :=
  (∀ e, (raw w).1 = Thrown e → Error.code e = Some 404%Z →
        guarded w = (Returned tt, (raw w).2)) ∧
  (∀ e, (guarded w).1 = Thrown e ↔
        (raw w).1 = Thrown e ∧ Error.code e ≠ Some 404%Z) ∧
  ((raw w).1 = Returned tt → guarded w = raw w ∧ gone (guarded w).2) ∧
  ((raw w).1 = Pending → guarded w = raw w).

(** The order in which the [n] deletions of a [Promise.all] settle when
    the first of them settles at tick [t]: the environment picks one of
    those in flight, then one of the rest, and so on (every answer, and
    every answer given up on, is one tick). *)
Fixpoint settling (env : Env) (t n : nat) (flying : list Request)
  : list Request :=
  match n, flying with
  | S n', r0 :: _ =>
      let i := schedule env t `mod` length flying in
      nth i flying r0 :: settling env (S t) n' (delete i flying)
  | _, _ => []
  end.

(** A fate that does not make a safe deletion throw: the request is
    served, is never answered, or fails with the code 404. *)
Definition harmless (f : Fate) : Prop :=
  ∀ e, f = Reject e → Error.code e = Some 404%Z.

(** The contract of a bulk clear [run], started in world [w], whose
    listing [listing] was answered in world [w1] and named the records
    that [deletes] asks to delete; [order] is the order in which the
    deletions settle.  The listing and all the deletions are sent,
    whatever happens next.  If [run] returns, no deletion is left in
    flight and every record named is gone.  If the deletion that
    settles in position [k] fails with an error [e] other than 404,
    none before it having done so, [run] throws [e] there and then:
    every deletion that comes later in the order is still in flight
    (these are all that are in flight, [length deletes - S k] of them,
    when every deletion before was answered), and nothing that follows
    [run] is run.  If no deletion fails with an error other than 404,
    [run] does not throw; if moreover every deletion is answered, it
    returns. *)
Definition clears (env : Env) (run : Async unit) (listing : Request)
    (deletes : list Request) (w w1 : World) : Prop :=
  let r := run w in
  let order := settling env (tick w1) (length deletes) deletes in
  requests r.2 = requests w ++ listing :: deletes ∧
  (r.1 = Returned tt →
   inflight r.2 = [] ∧
   (honest404 env → ∀ q, q ∈ deletes → absent q r.2)) ∧
  order ≡ₚ deletes ∧
  (∀ k q e,
     order !! k = Some q →
     fate (oracle env (tick w1 + k) q) = Reject e →
     Error.code e ≠ Some 404%Z →
     (∀ j q', j < k → order !! j = Some q' →
              harmless (fate (oracle env (tick w1 + j) q'))) →
     r.1 = Thrown e ∧
     (∀ j q', k < j → order !! j = Some q' → q' ∈ inflight r.2) ∧
     ((∀ j q', j < k → order !! j = Some q' →
               fate (oracle env (tick w1 + j) q') ≠ Hang) →
      length (inflight r.2) = length deletes - S k) ∧
     ∀ B (rest : Async B), (run;; rest) w = (Thrown e, r.2)) ∧
  ((∀ k q, order !! k = Some q →
           harmless (fate (oracle env (tick w1 + k) q))) →
   ∀ e, r.1 ≠ Thrown e) ∧
  ((∀ k q, order !! k = Some q →
           harmless (fate (oracle env (tick w1 + k) q)) ∧
           fate (oracle env (tick w1 + k) q) ≠ Hang) →
   r.1 = Returned tt).

(** ** Worlds, environments and datasets to run the script on *)

(** An empty store, nothing logged, no run in progress. *)
Definition emptyWorld : World := mkWorld (λ _, []) [] false [] 0 0 [] [].

(** Two categories are in the store. *)
Definition stockedWorld : World :=
  set_nextId 2
    (set_documents categoriesCollectionId
       [mkDoc 0 (CategoryData (Category.mk "Pizza" "Wood-fired pizzas"));
        mkDoc 1 (CategoryData (Category.mk "Drinks" "Cold drinks"))]
       emptyWorld).

Definition anyBlob : Blob := mkBlob "image/png" 1024.

Definition serverError : Error.t :=
  Error.mk (Some 500%Z) (Some "general_unknown") "Server Error".

(** Every request is served, every listing is whole. *)
Definition servingEnv : Env :=
  mkEnv (λ _ _, mkAnswer Settle None true anyBlob) (λ _, 0) (λ _, 0%N).

(** Every request fails with code 500. *)
Definition failingEnv : Env :=
  mkEnv (λ _ _, mkAnswer (Reject serverError) None true anyBlob)
        (λ _, 0) (λ _, 0%N).

(** No request is ever answered. *)
Definition silentEnv : Env :=
  mkEnv (λ _ _, mkAnswer Hang None true anyBlob) (λ _, 0) (λ _, 0%N).

(** Every request is served, and a listing returns one record at
    most. *)
Definition pagingEnv : Env :=
  mkEnv (λ _ _, mkAnswer Settle (Some 1) true anyBlob) (λ _, 0) (λ _, 0%N).

(** The image host answers every fetch with a response that is not OK. *)
Definition brokenImagesEnv : Env :=
  mkEnv (λ _ _, mkAnswer Settle None false anyBlob) (λ _, 0) (λ _, 0%N).

(** The store refuses every menu document and serves everything else. *)
Definition menuRejectingEnv : Env :=
  mkEnv (λ _ q,
           match q with
           | CreateDocument menuCollectionId _ _ =>
               mkAnswer (Reject serverError) None true anyBlob
           | _ => mkAnswer Settle None true anyBlob
           end)
        (λ _, 0) (λ _, 0%N).


(** The store lists, and fails every deletion with code 500. *)
Definition deleteFailingEnv : Env :=
  mkEnv (λ _ q,
           match q with
           | DeleteDocument _ _ | DeleteFile _ =>
               mkAnswer (Reject serverError) None true anyBlob
           | _ => mkAnswer Settle None true anyBlob
           end)
        (λ _, 0) (λ _, 0%N).

(** The store fails, with code 500, the deletion of the category with
    identifier 1, and serves everything else. *)
Definition oneDeleteFailingEnv : Env :=
  mkEnv (λ _ q,
           match q with
           | DeleteDocument categoriesCollectionId 1 =>
               mkAnswer (Reject serverError) None true anyBlob
           | _ => mkAnswer Settle None true anyBlob
           end)
        (λ _, 0) (λ _, 0%N).

#[global] Instance Category_eq_dec : EqDecision Category.t.
Proof. solve_decision. Defined.



(** The dataset of the specification's end-to-end scenario, the fields
    it leaves open as parameters. *)
Definition scenario (pizza drinks : string) (margherita : MenuItem.t)
  : DummyData :=
  mkData
    [Category.mk "Pizza" pizza; Category.mk "Drinks" drinks]
    [Customization.mk "Extra Cheese" (3 # 2) "topping"]
    [MenuItem.mk "Margherita" (MenuItem.description margherita)
       (MenuItem.image_url margherita) (MenuItem.price margherita)
       (MenuItem.rating margherita) (MenuItem.calories margherita)
       (MenuItem.protein margherita) "Pizza" ["Extra Cheese"]].

Definition margherita : MenuItem.t :=
  MenuItem.mk "Margherita" "Tomato, mozzarella, basil"
    "https://static.example.com/img/margherita.png"
    (25 # 2) (9 # 2) 700%Q 25%Q "Pizza" ["Extra Cheese"].


Definition sample : DummyData :=
  scenario "Wood-fired pizzas" "Cold drinks" margherita.


(** ** Further observations *)

(** The string has no slash in it. *)
Fixpoint noSlash (s : string) : bool :=
  match s with
  | "" => true
  | String c s' => negb (Ascii.eqb c "/"%char) && noSlash s'
  end.

(** The requests of the clearing phase, and among them the listings. *)
Definition isListing (q : Request) : bool :=
  match q with
  | ListDocuments _ | ListFiles => true
  | _ => false
  end.

Definition isClearing (q : Request) : bool :=
  match q with
  | ListDocuments _ | DeleteDocument _ _ | ListFiles | DeleteFile _ => true
  | _ => false
  end.

(** The listings of lines 101-105, in the order of the source. *)
Definition listings : list Request :=
  [ListDocuments categoriesCollectionId;
   ListDocuments customizationsCollectionId;
   ListDocuments menuCollectionId;
   ListDocuments menuCustomizationsCollectionId;
   ListFiles].

(** [m] is a stretch of the clearing phase whose listings are [ls]: it
    sends listings and deletions only; the listings it sends are the
    first of [ls], in order, and all of [ls] when it returns; and it
    leaves alone every collection, and the bucket, that it has not
    listed. *)
Definition clearingStep (ls : list Request) (m : Async unit) : Prop :=
  ∀ w, ∃ rs,
    requests (m w).2 = requests w ++ rs ∧
    Forall (λ q, isClearing q) rs ∧
    filter (λ q, isListing q) rs `prefix_of` ls ∧
    ((m w).1 = Returned tt → filter (λ q, isListing q) rs = ls) ∧
    (∀ c, ListDocuments c ∉ rs → documents (m w).2 c = documents w c) ∧
    (ListFiles ∉ rs → files (m w).2 = files w).

(** The second world's store is the first one's with records added at
    the end. *)
Definition extends : relation World :=
  λ w w', (∀ c, documents w c `prefix_of` documents w' c) ∧
          files w `prefix_of` files w'.

(** The second world's store is the first one's with records taken
    out. *)
Definition thins : relation World :=
  λ w w', (∀ c, documents w' c `sublist_of` documents w c) ∧
          files w' `sublist_of` files w.

(** Between the two worlds, only requests that satisfy [P] were sent. *)
Definition sendsOnly (P : Request → Prop) : relation World :=
  λ w w', ∃ rs, requests w' = requests w ++ rs ∧ Forall P rs.

(** The documents of [c], and the files, whose identifier is not in
    [ids] are still there. *)
Definition spares (c : Collection) (ids : list ID) : relation World :=
  λ w w', ∀ d, d ∈ documents w c → doc_id d ∉ ids → d ∈ documents w' c.

Definition sparesFiles (ids : list ID) : relation World :=
  λ w w', ∀ f, f ∈ files w → file_id f ∉ ids → f ∈ files w'.


(** The second world is later in a run than the first: requests have
    been sent in between, none taken back. *)
Definition later : relation World := sendsOnly (λ _, True).

(** The store refuses every creation of a document. *)
Definition refusesCreations (env : Env) : Prop :=
  ∀ t c id p, ∃ e, fate (oracle env t (CreateDocument c id p)) = Reject e.

(** The store refuses every document and serves everything else. *)
Definition createRejectingEnv : Env :=
  mkEnv (λ _ q,
           match q with
           | CreateDocument _ _ _ =>
               mkAnswer (Reject serverError) None true anyBlob
           | _ => mkAnswer Settle None true anyBlob
           end)
        (λ _, 0) (λ _, 0%N).

(** The warnings of the creation phases ([console.warn], lines 85, 119,
    135, 172 and 177). *)
Definition warning (e : LogEntry) : bool :=
  match e with
  | FailedCategory _ _ | FailedCustomization _ _
  | FailedMenuCustomization _ _ _ | FailedMenuItem _ _
  | UploadFailed _ _ => true
  | _ => false
  end.

(** Between the two worlds, only lines that satisfy [P] were logged. *)
Definition logsOnly (P : LogEntry → Prop) : relation World :=
  λ w w', ∃ l, console w' = console w ++ l ∧ Forall P l.

(** The fetches among the requests sent. *)
Definition isFetch (q : Request) : bool :=
  match q with
  | Fetch _ => true
  | _ => false
  end.

Definition fetches (w : World) : list Request :=
  filter (λ q, isFetch q) (requests w).

(** * Verification *)

(** ** What a computation leaves alone

    [keeps R m]: whatever [m] does, the world it ends in is related by [R]
    to the one it started in.  For a preorder [R] the property goes
    through every construct of the monad, and so from the leaves of the
    script to the whole of it. *)

Section Keeps.
Context (R : relation World) `{!PreOrder R}.

Lemma keeps_ret {A} (a : A) : keeps R (ret a).
Proof. intros w. reflexivity. Qed.

Lemma keeps_throw {A} e : keeps R (@throw A e).
Proof. intros w. reflexivity. Qed.

Lemma keeps_bind {A B} (m : Async A) (k : A → Async B) :
  keeps R m → (∀ a, keeps R (k a)) → keeps R (bind m k).
Proof.
  intros Hm Hk w. unfold bind. specialize (Hm w).
  destruct (m w) as [[a|e|] w1]; simpl in *; try done.
  etrans; [exact Hm | apply Hk].
Qed.

Lemma keeps_tryCatch {A} (m : Async A) h :
  keeps R m → (∀ e, keeps R (h e)) → keeps R (tryCatch m h).
Proof.
  intros Hm Hh w. unfold tryCatch. specialize (Hm w).
  destruct (m w) as [[a|e|] w1]; simpl in *; try done.
  etrans; [exact Hm | apply Hh].
Qed.

Lemma keeps_tryFinally {A} (m : Async A) f :
  keeps R m → keeps R f → keeps R (tryFinally m f).
Proof.
  intros Hm Hf w. unfold tryFinally. specialize (Hm w).
  destruct (m w) as [[a|e|] w1]; simpl in *; try done.
  - etrans; [exact Hm |]. apply (keeps_bind f (λ _, ret a)); [done |].
    intros _. apply keeps_ret.
  - etrans; [exact Hm |]. apply (keeps_bind f (λ _, throw e)); [done |].
    intros _. apply keeps_throw.
Qed.

Lemma keeps_forOf {A S} (l : list A) (body : S → A → Async S) s :
  (∀ s x, keeps R (body s x)) → keeps R (forOf l body s).
Proof.
  intros Hb. revert s. induction l as [|x l IH]; intros s; simpl.
  - apply keeps_ret.
  - apply keeps_bind; [apply Hb | intros s'; apply IH].
Qed.

Lemma keeps_if {A} (b : bool) (m1 m2 : Async A) :
  keeps R m1 → keeps R m2 → keeps R (if b then m1 else m2).
Proof. by destruct b. Qed.

Lemma picked_in_flight (i : nat) (r0 : Request) flying :
  nth (i `mod` length (r0 :: flying)) (r0 :: flying) r0 ∈ r0 :: flying.
Proof.
  destruct (lookup_lt_is_Some_2 (r0 :: flying)
              (i `mod` length (r0 :: flying))) as [r Hr].
  { apply Nat.mod_upper_bound. done. }
  rewrite (nth_lookup_Some _ _ _ _ Hr). by eapply list_elem_of_lookup_2.
Qed.

Lemma keeps_awaitAll env resume n flying stalled :
  (∀ r, r ∈ flying → keeps R (resume r)) →
  (∀ l w, R w (set_inflight l w)) →
  keeps R (awaitAll env resume n flying stalled).
Proof.
  intros Hr Hi. revert flying stalled Hr.
  induction n as [|n IH]; intros flying stalled Hr w.
  - simpl. destruct (flying ++ stalled); apply Hi.
  - destruct flying as [|r0 flying].
    { simpl. destruct stalled; apply Hi. }
    cbn [awaitAll].
    set (i := schedule env (tick w) `mod` length (r0 :: flying)).
    assert (Hin : nth i (r0 :: flying) r0 ∈ r0 :: flying)
      by apply picked_in_flight.
    assert (Hrest : ∀ r, r ∈ delete i (r0 :: flying) →
                         keeps R (resume r)).
    { intros r Hdel. apply Hr. by eapply list_elem_of_delete_inv. }
    specialize (Hr _ Hin w).
    destruct (resume _ w) as [[[]|e|] w1]; simpl in *.
    + etrans; [exact Hr | by apply IH].
    + etrans; [exact Hr | apply Hi].
    + etrans; [exact Hr | by apply IH].
Qed.
End Keeps.

#[global] Instance same_preorder {A} (f : World → A) : PreOrder (same f).
Proof.
  split; [by intros w | intros w1 w2 w3 H12 H23; unfold same in *; congruence].
Qed.

Ltac keeps_leaf :=
  solve
    [ intros;
      cbv [keeps same issue settle log ID_unique Date_now remove complete
           read_isSeeding assign_isSeeding ret throw bind tryCatch unless404];
      intros; simpl; repeat (case_match; simpl); simplify_eq; done ].

Ltac keeps_step :=
  cbv beta;
  lazymatch goal with
  | |- PreOrder _ => apply _
  | |- keeps _ (ret _) => apply keeps_ret
  | |- keeps _ (throw _) => apply keeps_throw
  | |- keeps _ (bind _ _) => apply keeps_bind
  | |- keeps _ (tryCatch _ _) => apply keeps_tryCatch
  | |- keeps _ (tryFinally _ _) => apply keeps_tryFinally
  | |- keeps _ (forOf _ _ _) => apply keeps_forOf
  | |- keeps _ (if _ then _ else _) => apply keeps_if
  | |- keeps _ _ => fail
  | |- ∀ _, _ => intro
  end.

Ltac solve_keeps :=
  cbv [populate clear seedMenuItem seedLink seedCategory seedCustomization
       uploadImageToStorage fileName createUnique createDocument createFile
       listDocuments listFiles fetch blob deleteDocument deleteFile
       safeDeleteDocument safeDeleteFile resumeSafeDelete getFileViewURL];
  repeat keeps_step;
  try keeps_leaf.

Section Frames.
Variable env : Env.

(** Nothing but [seed] itself assigns [isSeeding]. *)
Lemma clearAll_flag c : keeps (same isSeeding) (clearAll env c).
Proof.
  unfold clearAll, promiseAll. solve_keeps.
  apply keeps_awaitAll; solve_keeps.
Qed.

Lemma clearStorage_flag : keeps (same isSeeding) (clearStorage env).
Proof.
  unfold clearStorage, promiseAll. solve_keeps.
  apply keeps_awaitAll; solve_keeps.
Qed.

Lemma clear_flag : keeps (same isSeeding) (clear env).
Proof.
  unfold clear. repeat keeps_step;
    first [apply clearAll_flag | apply clearStorage_flag | keeps_leaf].
Qed.

Lemma populate_flag data : keeps (same isSeeding) (populate env data).
Proof. solve_keeps. Qed.
End Frames.

(** ** What a computation cannot throw

    [safe m]: no run of [m] ends with a thrown error. *)

Lemma safe_ret {A} (a : A) : safe (ret a).
Proof. by intros w e. Qed.

Lemma safe_log e : safe (log e).
Proof. by intros w e'. Qed.

Lemma safe_bind {A B} (m : Async A) (k : A → Async B) :
  safe m → (∀ a, safe (k a)) → safe (bind m k).
Proof.
  intros Hm Hk w e. unfold bind. specialize (Hm w).
  destruct (m w) as [[a|e'|] w1]; simpl in *; [apply Hk | by destruct (Hm e') | done].
Qed.

(** A [try] whose [catch] block cannot throw cannot throw. *)
Lemma safe_tryCatch {A} (m : Async A) h :
  (∀ e, safe (h e)) → safe (tryCatch m h).
Proof.
  intros Hh w e. unfold tryCatch.
  destruct (m w) as [[a|e'|] w1]; simpl; [done | apply Hh | done].
Qed.

Lemma safe_tryFinally {A} (m : Async A) f :
  safe m → safe f → safe (tryFinally m f).
Proof.
  intros Hm Hf w e. unfold tryFinally. specialize (Hm w).
  destruct (m w) as [[a|e'|] w1]; simpl in *; [| by destruct (Hm e') | done].
  apply (safe_bind f (λ _, ret a)); [done | intros _; apply safe_ret].
Qed.

Lemma safe_forOf {A S} (l : list A) (body : S → A → Async S) s :
  (∀ s x, safe (body s x)) → safe (forOf l body s).
Proof.
  intros Hb. revert s. induction l as [|x l IH]; intros s; simpl.
  - apply safe_ret.
  - apply safe_bind; [apply Hb | intros s'; apply IH].
Qed.

Section Guards.
Variable env : Env.

Lemma uploadImageToStorage_safe imageUrl :
  safe (uploadImageToStorage env imageUrl).
Proof.
  apply safe_tryCatch. intros e.
  apply safe_bind; [apply safe_log | intros _; apply safe_ret].
Qed.

Lemma seedCategory_safe categoryMap cat :
  safe (seedCategory env categoryMap cat).
Proof.
  apply safe_tryCatch. intros e.
  apply safe_bind; [apply safe_log | intros _; apply safe_ret].
Qed.

Lemma seedCustomization_safe customizationMap cus :
  safe (seedCustomization env customizationMap cus).
Proof.
  apply safe_tryCatch. intros e.
  apply safe_bind; [apply safe_log | intros _; apply safe_ret].
Qed.

Lemma seedLink_safe customizationMap item menuDoc u cusName :
  safe (seedLink env customizationMap item menuDoc u cusName).
Proof. apply safe_tryCatch. intros e. apply safe_log. Qed.

Lemma seedMenuItem_safe categoryMap customizationMap u item :
  safe (seedMenuItem env categoryMap customizationMap u item).
Proof. apply safe_tryCatch. intros e. apply safe_log. Qed.

(** Every guard of the three creation phases holds: nothing escapes
    them. *)
Lemma populate_safe data : safe (populate env data).
Proof.
  unfold populate.
  apply safe_bind; [apply safe_forOf, seedCategory_safe | intros categoryMap].
  apply safe_bind;
    [apply safe_forOf, seedCustomization_safe | intros customizationMap].
  apply safe_bind; [apply safe_forOf, seedMenuItem_safe | intros _].
  apply safe_log.
Qed.

(** The two paths through [seed]. *)
Lemma seed_busy data w :
  isSeeding w = true →
  seed env data w
  = (Returned tt, set_console (console w ++ [AlreadyRunning]) w).
Proof. intros Hw. unfold seed, bind, read_isSeeding. by rewrite Hw. Qed.

Lemma seed_idle data w :
  isSeeding w = false →
  seed env data w
  = tryFinally
      (tryCatch (clear env;; populate env data)
                (λ err, log (SeedError err)))
      (assign_isSeeding false) (set_isSeeding true w).
Proof. intros Hw. unfold seed, bind, read_isSeeding. by rewrite Hw. Qed.

Lemma seed_safe data : safe (seed env data).
Proof.
  intros w e. destruct (isSeeding w) eqn:Hw.
  - by rewrite seed_busy.
  - rewrite seed_idle by done.
    apply safe_tryFinally; [|by intros ??].
    apply safe_tryCatch. intros e'. apply safe_log.
Qed.

(** The [try] block of [seed] throws exactly what its clearing phase
    throws. *)
Lemma try_block_throws data w e w' :
  (clear env;; populate env data) w = (Thrown e, w') ↔
  clear env w = (Thrown e, w').
Proof.
  unfold bind at 1. destruct (clear env w) as [[[]|e1|] w1] eqn:Hc.
  - split; [|done]. intros Hp. destruct (populate_safe data w1 e).
    by rewrite Hp.
  - done.
  - done.
Qed.
End Guards.

(** ** [seed] as a whole: errors and the guard *)

(** C8: [seed] never rejects.  Whatever the remote store does, a call of
    [seed] does not throw: it returns (with no value) or stays suspended
    at a request that is never answered.  An error of the clearing phase,
    the only one that can leave the [try] block, is logged once by the
    top-level [catch] and not thrown again.  The handler that the button
    attaches with [.catch] therefore never runs: pressing the button is
    the same computation as calling [seed]. *)
Theorem seed_never_rejects env data w :
  (∀ e, (seed env data w).1 ≠ Thrown e) ∧
  ((seed env data w).1 = Returned tt ∨ (seed env data w).1 = Pending) ∧
  (∀ e w', isSeeding w = false →
     (clear env;; populate env data) (set_isSeeding true w) = (Thrown e, w') →
     clear env (set_isSeeding true w) = (Thrown e, w') ∧
     seed env data w
     = (Returned tt,
        set_isSeeding false (set_console (console w' ++ [SeedError e]) w'))) ∧
  onPress env data w = seed env data w.
Proof.
  assert (Hsafe := seed_safe env data w).
  split; [done|]. split; [|split].
  - destruct (seed env data w) as [[[]|e|] w1]; simpl in *; auto.
    by destruct (Hsafe e).
  - intros e w' Hw Hthrow. split; [by apply (try_block_throws env data)|].
    rewrite seed_idle by done. unfold tryFinally, tryCatch.
    by rewrite Hthrow.
  - unfold onPress, tryCatch.
    destruct (seed env data w) as [[[]|e|] w1]; simpl in *; try done.
    by destruct (Hsafe e).
Qed.

(** When every request fails, the first listing throws, the error is
    logged, and [seed] returns. *)
Lemma seed_never_rejects_witness :
  isSeeding emptyWorld = false ∧
  (seed failingEnv sample emptyWorld).1 = Returned tt ∧
  console (seed failingEnv sample emptyWorld).2
  = [Clearing; SeedError serverError] ∧
  onPress failingEnv sample emptyWorld = seed failingEnv sample emptyWorld.
Proof.
  pose proof (seed_never_rejects failingEnv sample emptyWorld)
    as (_ & _ & Hcaught & Hpress).
  destruct (Hcaught serverError
              (clear failingEnv (set_isSeeding true emptyWorld)).2
              eq_refl eq_refl) as [_ Hseed].
  rewrite Hseed. by repeat split.
Defined.

(** C3: the single-flight guard.  A call of [seed] made while
    [isSeeding] is set logs the notice and returns at once: it sends no
    request, changes neither the store nor the flag, and leaves every
    other variable of the run in flight as it was.  A call that passes
    the guard has the flag set for as long as it is suspended and has
    cleared it when it ends, whether its [try] block returned or threw.
    (The call that clears the flag is the call that set it; the call
    that is turned away leaves the flag to the run in flight.)  So a
    call made while an earlier one is suspended is turned away. *)
Theorem seed_single_flight env data w :
  (isSeeding w = true →
   seed env data w
   = (Returned tt, set_console (console w ++ [AlreadyRunning]) w)) ∧
  (isSeeding w = false →
   match seed env data w with
   | (Pending, w1) =>
       isSeeding w1 = true ∧
       ∀ env' data',
         let w2 := (seed env' data' w1).2 in
         (seed env' data' w1).1 = Returned tt ∧
         requests w2 = requests w1 ∧
         documents w2 = documents w1 ∧
         files w2 = files w1 ∧
         isSeeding w2 = true ∧
         w2 = set_console (console w1 ++ [AlreadyRunning]) w1
   | (_, w1) => isSeeding w1 = false
   end).
Proof.
  split; [apply seed_busy|].
  intros Hw. rewrite seed_idle by done.
  unfold tryFinally, tryCatch.
  pose proof (keeps_bind (same isSeeding) _ _
                (clear_flag env) (λ _, populate_flag env data)
                (set_isSeeding true w)) as Hflag.
  unfold same in Hflag. simpl in Hflag.
  destruct ((clear env;; populate env data) (set_isSeeding true w))
    as [[[]|e|] w1]; simpl in *; try done.
  split; [done|]. intros env' data'. by rewrite seed_busy.
Qed.

(** A run whose first request is never answered is suspended with the
    flag set, and a second call is turned away; a run whose every request
    fails ends with the flag cleared. *)
Lemma seed_single_flight_witness :
  isSeeding emptyWorld = false ∧
  (seed silentEnv sample emptyWorld).1 = Pending ∧
  (let w1 := (seed silentEnv sample emptyWorld).2 in
   isSeeding w1 = true ∧
   (seed servingEnv sample w1).1 = Returned tt ∧
   requests (seed servingEnv sample w1).2 = requests w1) ∧
  isSeeding (seed failingEnv sample emptyWorld).2 = false.
Proof.
  pose proof (seed_single_flight silentEnv sample emptyWorld) as [_ Hidle].
  specialize (Hidle eq_refl).
  change (seed silentEnv sample emptyWorld)
    with (@Pending unit, (seed silentEnv sample emptyWorld).2) in Hidle.
  destruct Hidle as [Hflag Hagain].
  destruct (Hagain servingEnv sample) as (Hret & Hreq & _).
  pose proof (seed_single_flight failingEnv sample emptyWorld) as [_ Hfail].
  specialize (Hfail eq_refl).
  change (seed failingEnv sample emptyWorld)
    with (Returned tt, (seed failingEnv sample emptyWorld).2) in Hfail.
  by repeat split.
Defined.

(** ** Safe deletion *)

Lemma tryCatch_unless404 (raw : Async unit) (gone : World → Prop) w :
  ((raw w).1 = Returned tt → gone (raw w).2) →
  safeDeletion raw (tryCatch raw unless404) gone w.
Proof.
  intros Hgone. unfold safeDeletion, tryCatch, unless404.
  destruct (raw w) as [[[]|e|] w1]; simpl in *.
  - split; [done|]. split; [intros e; split; [done | by intros [? _]]|].
    split; [intros _; split; [done | by apply Hgone] | done].
  - split; [intros e' [= <-] Hcode; by rewrite decide_True|].
    split; [|done].
    intros e'. destruct (decide (Error.code e = Some 404%Z)) as [Hc|Hc]; simpl.
    + split; [done | by intros [[= <-] ?]].
    + split; [by intros [= <-] | by intros [[= <-] _]].
  - split; [done|]. split; [intros e; split; [done | by intros [? _]]|].
    done.
Qed.

(** C5: the safe deletion helpers.  [safeDeleteDocument] and
    [safeDeleteFile] return when the remote deletion fails with code 404,
    throw the error of the remote deletion exactly when it fails with
    anything else, and return when it succeeds, the record then being
    gone from the collection or the bucket.  In particular the deletion
    of a record that the store does not have, once served, returns. *)
Theorem safe_delete_contract env w :
  (∀ c id,
     safeDeletion (deleteDocument env c id) (safeDeleteDocument env c id)
       (λ w', id ∉ doc_id <$> documents w' c) w ∧
     (fate (oracle env (tick w) (DeleteDocument c id)) = Settle →
      (safeDeleteDocument env c id w).1 = Returned tt ∧
      id ∉ doc_id <$> documents (safeDeleteDocument env c id w).2 c)) ∧
  (∀ id,
     safeDeletion (deleteFile env id) (safeDeleteFile env id)
       (λ w', id ∉ file_id <$> files w') w ∧
     (fate (oracle env (tick w) (DeleteFile id)) = Settle →
      (safeDeleteFile env id w).1 = Returned tt ∧
      id ∉ file_id <$> files (safeDeleteFile env id w).2)).
Proof.
  split.
  - intros c id. split.
    + apply tryCatch_unless404.
      unfold deleteDocument, complete, issue, settle, remove, bind; simpl.
      destruct (fate _); simpl; try done.
      case_decide; simpl; [intros _|done].
      rewrite decide_True by done.
      rewrite list_elem_of_fmap. intros (d & -> & Hd).
      apply list_elem_of_filter in Hd as [Hne _]. done.
    + intros Hfate.
      unfold safeDeleteDocument, tryCatch, deleteDocument, complete, issue,
        settle, remove, bind; simpl.
      rewrite Hfate; simpl. case_decide as Hin; simpl.
      * split; [done|]. rewrite decide_True by done.
        rewrite list_elem_of_fmap. intros (d & -> & Hd).
        apply list_elem_of_filter in Hd as [Hne _]. done.
      * done.
  - intros id. split.
    + apply tryCatch_unless404.
      unfold deleteFile, complete, issue, settle, remove, bind; simpl.
      destruct (fate _); simpl; try done.
      case_decide; simpl; [intros _|done].
      rewrite list_elem_of_fmap. intros (f & -> & Hf).
      apply list_elem_of_filter in Hf as [Hne _]. done.
    + intros Hfate.
      unfold safeDeleteFile, tryCatch, deleteFile, complete, issue,
        settle, remove, bind; simpl.
      rewrite Hfate; simpl. case_decide as Hin; simpl.
      * split; [done|].
        rewrite list_elem_of_fmap. intros (f & -> & Hf).
        apply list_elem_of_filter in Hf as [Hne _]. done.
      * done.
Qed.

(** ** The calls, evaluated *)

Lemma bind_Returned {A B} (m : Async A) (k : A → Async B) w a w1 :
  m w = (Returned a, w1) → bind m k w = k a w1.
Proof. intros H. unfold bind. by rewrite H. Qed.

Lemma bind_Thrown {A B} (m : Async A) (k : A → Async B) w e w1 :
  m w = (Thrown e, w1) → bind m k w = (Thrown e, w1).
Proof. intros H. unfold bind. by rewrite H. Qed.

Lemma bind_Pending {A B} (m : Async A) (k : A → Async B) w w1 :
  m w = (Pending, w1) → bind m k w = (Pending, w1).
Proof. intros H. unfold bind. by rewrite H. Qed.

Lemma fetch_eval env url w :
  fetch env url w
  = match fate (oracle env (tick w) (Fetch url)) with
    | Settle =>
        (Returned (mkResponse (http_ok (oracle env (tick w) (Fetch url))) url),
         sent (Fetch url) w)
    | Reject e => (Thrown e, sent (Fetch url) w)
    | Hang => (Pending, sent (Fetch url) w)
    end.
Proof.
  unfold fetch, bind, issue, settle, ret; simpl. by destruct (fate _).
Qed.

Lemma blob_eval env response w :
  blob env response w
  = let q := ReadBlob (response_url response) in
    match fate (oracle env (tick w) q) with
    | Settle => (Returned (body (oracle env (tick w) q)), sent q w)
    | Reject e => (Thrown e, sent q w)
    | Hang => (Pending, sent q w)
    end.
Proof.
  unfold blob, bind, issue, settle, ret; simpl. by destruct (fate _).
Qed.

Lemma createFile_eval env id f w :
  createFile env id f w
  = match fate (oracle env (tick w) (CreateFile id f)) with
    | Settle =>
        (Returned (mkFile id f),
         set_files (files w ++ [mkFile id f]) (sent (CreateFile id f) w))
    | Reject e => (Thrown e, sent (CreateFile id f) w)
    | Hang => (Pending, sent (CreateFile id f) w)
    end.
Proof.
  unfold createFile, bind, issue, settle; simpl. by destruct (fate _).
Qed.

Lemma fileName_eval env imageUrl w :
  fileName env imageUrl w = (Returned (fileNameAt env imageUrl (tick w)), w).
Proof. unfold fileName, fileNameAt. by case_decide. Qed.

Lemma createUnique_eval env c p w :
  createUnique env c p w
  = match fate (oracle env (tick w) (CreateDocument c (nextId w) p)) with
    | Settle => (Returned (mkDoc (nextId w) p), created c p w)
    | Reject e => (Thrown e, asked (CreateDocument c (nextId w) p) w)
    | Hang => (Pending, asked (CreateDocument c (nextId w) p) w)
    end.
Proof.
  unfold createUnique, createDocument, bind, ID_unique, issue, settle; simpl.
  by destruct (fate _).
Qed.

(** ** The image materializer *)

Section Image.
Variable env : Env.

Lemma uploadImageToStorage_documents imageUrl c :
  keeps (same (λ w, documents w c)) (uploadImageToStorage env imageUrl).
Proof. solve_keeps. Qed.

Lemma seedLink_documents customizationMap item menuDoc c :
  c ≠ menuCustomizationsCollectionId →
  keeps (same (λ w, documents w c))
    (forOf (MenuItem.customizations item)
       (seedLink env customizationMap item menuDoc) tt).
Proof.
  intros Hc. solve_keeps.
Qed.

(** The menu document of an item carries what the image materializer
    returned for the item. *)
Lemma seedMenuItem_image categoryMap customizationMap item w img w1 :
  uploadImageToStorage env (MenuItem.image_url item) w = (Returned img, w1) →
  documents (seedMenuItem env categoryMap customizationMap tt item w).2
    menuCollectionId
  = documents w menuCollectionId ∨
  documents (seedMenuItem env categoryMap customizationMap tt item w).2
    menuCollectionId
  = documents w menuCollectionId
      ++ [mkDoc (nextId w1) (MenuData (menuFields categoryMap item img))].
Proof.
  intros Hup.
  pose proof (uploadImageToStorage_documents (MenuItem.image_url item)
                menuCollectionId w) as Hdocs.
  rewrite Hup in Hdocs. unfold same in Hdocs. simpl in Hdocs.
  unfold seedMenuItem, tryCatch. rewrite (bind_Returned _ _ _ _ _ Hup).
  unfold bind. rewrite createUnique_eval.
  destruct (fate _); simpl; [|by left|by left].
  right.
  match goal with
  | |- context [forOf ?l ?b ?s ?w0] =>
      pose proof (seedLink_documents customizationMap item
        (mkDoc (nextId w1) (MenuData (menuFields categoryMap item img)))
        menuCollectionId ltac:(done) w0) as Hl;
      destruct (forOf l b s w0) as [[[]|e|] w2]
  end; unfold same in Hl; simpl in *; by rewrite Hl, Hdocs.
Qed.
End Image.

(** C4: the image materializer.  [uploadImageToStorage] never throws.
    It returns the placeholder ["https://via.placeholder.com/150"] when
    the fetch fails, when the response is not OK, when the body cannot
    be read and when the upload fails; when all of it succeeds it
    returns the view URL of the file it has put in the bucket.  The menu
    document created for the item has as [image_url] what the
    materializer returned, so the placeholder in the four cases of
    failure. *)
Theorem image_fallback env imageUrl w :
  let fetched := oracle env (tick w) (Fetch imageUrl) in
  let read := oracle env (S (tick w)) (ReadBlob imageUrl) in
  let upload :=
    oracle env (S (S (tick w)))
      (CreateFile (nextId w) (uploadOf env imageUrl w)) in
  let r := uploadImageToStorage env imageUrl w in
  (∀ e, r.1 ≠ Thrown e) ∧
  (∀ e, fate fetched = Reject e → r.1 = Returned (UrlString placeholder)) ∧
  (fate fetched = Settle → http_ok fetched = false →
   r.1 = Returned (UrlString placeholder)) ∧
  (fate fetched = Settle → http_ok fetched = true →
   (∀ e, fate read = Reject e → r.1 = Returned (UrlString placeholder)) ∧
   (fate read = Settle →
    (∀ e, fate upload = Reject e → r.1 = Returned (UrlString placeholder)) ∧
    (fate upload = Settle →
     r.1 = Returned (getFileViewURL (nextId w)) ∧
     files r.2 = files w ++ [mkFile (nextId w) (uploadOf env imageUrl w)]))) ∧
  (∀ categoryMap customizationMap item img,
     MenuItem.image_url item = imageUrl → r.1 = Returned img →
     let w' := (seedMenuItem env categoryMap customizationMap tt item w).2 in
     documents w' menuCollectionId = documents w menuCollectionId ∨
     ∃ id m,
       documents w' menuCollectionId
       = documents w menuCollectionId ++ [mkDoc id (MenuData m)] ∧
       MenuDoc.image_url m = img).
Proof.
  intros fetched read upload r.
  split; [apply uploadImageToStorage_safe|].
  assert (Heval : r = uploadImageToStorage env imageUrl w) by done.
  unfold uploadImageToStorage, tryCatch in Heval.
  unfold bind at 1 in Heval. rewrite fetch_eval in Heval.
  fold fetched in Heval.
  split; [|split; [|split]].
  - intros e He. rewrite He in Heval. rewrite Heval; reflexivity.
  - intros Hf Hok. rewrite Hf in Heval. simpl in Heval.
    rewrite Hok in Heval. rewrite Heval; reflexivity.
  - intros Hf Hok. rewrite Hf in Heval. simpl in Heval.
    rewrite Hok in Heval. simpl in Heval.
    unfold bind at 1 in Heval. rewrite blob_eval in Heval.
    simpl in Heval. fold read in Heval.
    split.
    + intros e He. rewrite He in Heval. rewrite Heval; reflexivity.
    + intros Hr. rewrite Hr in Heval.
      unfold bind at 1, ID_unique in Heval.
      unfold bind at 1 in Heval. rewrite fileName_eval in Heval.
      unfold bind at 1 in Heval. rewrite createFile_eval in Heval.
      simpl in Heval. subst upload. unfold uploadOf. simpl. fold read.
      split.
      * intros e He. rewrite He in Heval. rewrite Heval; reflexivity.
      * intros Hu. rewrite Hu in Heval. rewrite Heval. split; reflexivity.
  - intros categoryMap customizationMap item img <- Himg.
    destruct (seedMenuItem_image env categoryMap customizationMap item w
                img r.2) as [Hsame|Hnew].
    + rewrite <- Himg. apply surjective_pairing.
    + by left.
    + right. by eexists _, _.
Qed.

(** The image host is broken, the store is not: the one menu document
    of the scenario has the placeholder as its image. *)
Lemma image_fallback_witness :
  (uploadImageToStorage brokenImagesEnv (MenuItem.image_url margherita)
     emptyWorld).1
  = Returned (UrlString "https://via.placeholder.com/150") ∧
  MenuDoc.image_url
    <$> (match doc_data <$> documents
                 (seed brokenImagesEnv sample emptyWorld).2 menuCollectionId
         with
         | [MenuData m] => Some m
         | _ => None
         end)
  = Some (UrlString "https://via.placeholder.com/150").
Proof.
  split; [|reflexivity].
  pose proof (image_fallback brokenImagesEnv (MenuItem.image_url margherita)
                emptyWorld) as (_ & _ & Hbroken & _).
  by apply Hbroken.
Defined.

(** ** The loops of attempts *)

Section Attempts.
Context {V A : Type} (env : Env) (c : Collection) (pay : A → Payload)
  (upd : V → A → ID → V) (entry : A → Error.t → LogEntry).

Lemma attempt_eval s x w :
  attempt env c pay upd entry s x w
  = match fate (oracle env (tick w) (CreateDocument c (nextId w) (pay x))) with
    | Settle => (Returned (upd s x (nextId w)), created c (pay x) w)
    | Reject e =>
        (Returned s,
         set_console (console w ++ [entry x e])
           (asked (CreateDocument c (nextId w) (pay x)) w))
    | Hang => (Pending, asked (CreateDocument c (nextId w) (pay x)) w)
    end.
Proof.
  unfold attempt, tryCatch, bind. rewrite createUnique_eval.
  by destruct (fate _).
Qed.

Lemma attempt_loop l : ∀ s w,
  (∀ x t id, x ∈ l → fate (oracle env t (CreateDocument c id (pay x))) ≠ Hang) →
  ∃ w',
    forOf l (attempt env c pay upd entry) s w
    = (Returned (attemptState env c pay upd (tick w) (nextId w) l s), w') ∧
    grown c (attemptDocs env c pay (tick w) (nextId w) l)
      (attemptRequests c pay (nextId w) l) (length l) w w'.
Proof.
  induction l as [|x l IH]; intros s w Hlive.
  - exists w. split; [done|]. unfold grown. simpl.
    rewrite !app_nil_r, !Nat.add_0_r. by repeat split.
  - cbn [forOf]. unfold bind. rewrite attempt_eval.
    cbn [attemptState attemptDocs attemptRequests]. unfold served.
    assert (Hx := Hlive x (tick w) (nextId w) ltac:(by left)).
    assert (Hl : ∀ y t id, y ∈ l →
              fate (oracle env t (CreateDocument c id (pay y))) ≠ Hang).
    { intros y t id Hy. apply Hlive. by right. }
    destruct (fate _) as [|e|]; [| |done].
    + destruct (IH (upd s x (nextId w)) (created c (pay x) w) Hl)
        as (w' & Hrun & Hd & Ho & Hf & Hs & Hn & Ht & Hr & Hi).
      exists w'. split; [exact Hrun|]. simpl in *.
      rewrite decide_True in Hd by done.
      repeat split; try done.
      * by rewrite Hd, <- app_assoc.
      * intros c' Hc'. rewrite (Ho c' Hc'). by rewrite decide_False.
      * lia.
      * lia.
      * by rewrite Hr, <- app_assoc.
    + destruct (IH s (set_console (console w ++ [entry x e])
                    (asked (CreateDocument c (nextId w) (pay x)) w)) Hl)
        as (w' & Hrun & Hd & Ho & Hf & Hs & Hn & Ht & Hr & Hi).
      exists w'. split; [exact Hrun|]. simpl in *.
      repeat split; try done.
      * lia.
      * lia.
      * by rewrite Hr, <- app_assoc.
Qed.
End Attempts.

Lemma forOf_ext {V A} (l : list A) (b1 b2 : V → A → Async V) s w :
  (∀ s x w, b1 s x w = b2 s x w) → forOf l b1 s w = forOf l b2 s w.
Proof.
  intros Hb. revert s w. induction l as [|x l IH]; intros s w; [done|].
  simpl. unfold bind. rewrite Hb. by destruct (b2 s x w) as [[s'| |] w1].
Qed.

Section Bodies.
Variable env : Env.

Lemma seedCategory_attempt :
  seedCategory env
  = attempt env categoriesCollectionId CategoryData
      (λ m cat id, assign m (Category.name cat) id)
      (λ cat, FailedCategory (Category.name cat)).
Proof. reflexivity. Qed.

Lemma seedCustomization_attempt :
  seedCustomization env
  = attempt env customizationsCollectionId CustomizationData
      (λ m cus id, assign m (Customization.name cus) id)
      (λ cus, FailedCustomization (Customization.name cus)).
Proof. reflexivity. Qed.

Lemma seedLink_attempt customizationMap item menuDoc u cusName w :
  seedLink env customizationMap item menuDoc u cusName w
  = attempt env menuCustomizationsCollectionId
      (linkPayload customizationMap (doc_id menuDoc))
      (λ _ _ _, tt)
      (λ cusName, FailedMenuCustomization (MenuItem.name item) cusName)
      u cusName w.
Proof.
  destruct u. unfold seedLink, attempt, tryCatch, bind, linkPayload.
  by destruct (createUnique _ _ _ w) as [[d|e|] w1].
Qed.

(** The loop over [item.customizations]: with an environment that
    answers, every name of the list has its request sent, whatever
    happens to the requests before it. *)
Lemma links_run customizationMap item menuDoc w :
  responsive env →
  ∃ w',
    forOf (MenuItem.customizations item)
      (seedLink env customizationMap item menuDoc) tt w
    = (Returned tt, w') ∧
    grown menuCustomizationsCollectionId
      (attemptDocs env menuCustomizationsCollectionId
         (linkPayload customizationMap (doc_id menuDoc))
         (tick w) (nextId w) (MenuItem.customizations item))
      (attemptRequests menuCustomizationsCollectionId
         (linkPayload customizationMap (doc_id menuDoc))
         (nextId w) (MenuItem.customizations item))
      (length (MenuItem.customizations item)) w w'.
Proof.
  intros Hlive.
  destruct (attempt_loop env menuCustomizationsCollectionId
              (linkPayload customizationMap (doc_id menuDoc))
              (λ _ _ _, tt)
              (λ cusName, FailedMenuCustomization (MenuItem.name item) cusName)
              (MenuItem.customizations item) tt w)
    as (w' & Hrun & Hgrown); [by intros; apply Hlive|].
  exists w'. split; [|done].
  rewrite (forOf_ext _ _ _ _ _ (seedLink_attempt customizationMap item menuDoc)).
  rewrite Hrun. by destruct (attemptState _ _ _ _ _ _ _ _).
Qed.

Lemma seedMenuItem_eval categoryMap customizationMap item w img w1 :
  uploadImageToStorage env (MenuItem.image_url item) w = (Returned img, w1) →
  seedMenuItem env categoryMap customizationMap tt item w
  = match fate (oracle env (tick w1) (menuRequest categoryMap item img w1)) with
    | Settle =>
        forOf (MenuItem.customizations item)
          (seedLink env customizationMap item
             (mkDoc (nextId w1) (MenuData (menuFields categoryMap item img))))
          tt
          (created menuCollectionId
             (MenuData (menuFields categoryMap item img)) w1)
    | Reject e =>
        (Returned tt,
         set_console (console w1 ++ [FailedMenuItem (MenuItem.name item) e])
           (asked (menuRequest categoryMap item img w1) w1))
    | Hang => (Pending, asked (menuRequest categoryMap item img w1) w1)
    end.
Proof.
  intros Hup. unfold seedMenuItem, tryCatch.
  rewrite (bind_Returned _ _ _ _ _ Hup).
  unfold bind. rewrite createUnique_eval. unfold menuRequest.
  destruct (fate _); try done.
  match goal with
  | |- context [forOf ?l ?b ?s ?w0] =>
      pose proof (safe_forOf l b s
        (seedLink_safe env customizationMap item
           (mkDoc (nextId w1) (MenuData (menuFields categoryMap item img))))
        w0) as Hsafe;
      destruct (forOf l b s w0) as [[[]|e|] w2]
  end; try done. by destruct (Hsafe e).
Qed.

(** With an environment that answers, the image materializer
    returns. *)
Lemma uploadImageToStorage_returns imageUrl w :
  responsive env →
  ∃ img, (uploadImageToStorage env imageUrl w).1 = Returned img.
Proof.
  intros Hlive.
  assert (Hnot : (uploadImageToStorage env imageUrl w).1 ≠ Pending).
  { unfold uploadImageToStorage, tryCatch.
    unfold bind at 1. rewrite fetch_eval.
    pose proof (Hlive (tick w) (Fetch imageUrl)) as H1.
    destruct (fate _); [|done|done]. simpl.
    destruct (http_ok _); simpl; [|done].
    unfold bind at 1. rewrite blob_eval. simpl.
    pose proof (Hlive (S (tick w)) (ReadBlob imageUrl)) as H2.
    destruct (fate _); [|done|done].
    unfold bind at 1, ID_unique. unfold bind at 1. rewrite fileName_eval.
    unfold bind at 1. rewrite createFile_eval. simpl.
    match goal with
    | |- context [fate (oracle env ?t ?q)] => pose proof (Hlive t q) as H3
    end.
    destruct (fate _); done. }
  pose proof (uploadImageToStorage_safe env imageUrl w) as Hsafe.
  destruct (uploadImageToStorage env imageUrl w) as [[img|e|] w1];
    simpl in *; [by eexists | by destruct (Hsafe e) | done].
Qed.
End Bodies.

Section AttemptFacts.
Context {A : Type} (env : Env) (c : Collection) (pay : A → Payload).



Lemma attemptDocs_payload l : ∀ t first d,
  d ∈ attemptDocs env c pay t first l → ∃ x, x ∈ l ∧ doc_data d = pay x.
Proof.
  induction l as [|y l IH]; intros t first d Hd; [by apply elem_of_nil in Hd|].
  simpl in Hd. apply elem_of_app in Hd as [Hd|Hd].
  - destruct (served _ _ _); [|by apply elem_of_nil in Hd].
    apply list_elem_of_singleton in Hd as ->. exists y. split; [by left|done].
  - destruct (IH _ _ _ Hd) as (x & Hx & Hpay). exists x. split; [by right|done].
Qed.

Lemma attemptRequests_length l first :
  length (attemptRequests c pay first l) = length l.
Proof. revert first. induction l; intros first; simpl; auto. Qed.

(** When every attempt is served, there is one document per element. *)
Lemma attemptDocs_served l : ∀ t first,
  (∀ x t id, x ∈ l → fate (oracle env t (CreateDocument c id (pay x))) = Settle) →
  attemptDocs env c pay t first l
  = imap (λ k x, mkDoc (first + k) (pay x)) l.
Proof.
  induction l as [|y l IH]; intros t first Hs; [done|].
  simpl. unfold served. rewrite Hs by (by left). simpl.
  rewrite Nat.add_0_r. f_equal.
  rewrite IH by (intros; apply Hs; by right).
  apply imap_ext. intros k x _. simpl. f_equal. lia.
Qed.
End AttemptFacts.

(** ** A menu item and its links *)


Lemma menuRejectingEnv_responsive : responsive menuRejectingEnv.
Proof. intros t q. by destruct q as [|[]| | | | | |]. Qed.


Lemma servingEnv_responsive : responsive servingEnv.
Proof. by intros t q. Qed.






(** ** Bulk clear *)

#[global] Instance shrinks_preorder : PreOrder shrinks.
Proof.
  split.
  - by intros w.
  - intros w1 w2 w3 [Hd12 Hf12] [Hd23 Hf23]. split.
    + intros c x Hx. by apply Hd12, Hd23.
    + intros x Hx. by apply Hf12, Hf23.
Qed.

Lemma absent_shrinks r w w' : absent r w → shrinks w w' → absent r w'.
Proof.
  intros Habs [Hd Hf]. destruct r as [|?|c id| | |id| |]; simpl in *; try done.
  - intros Hin. apply Habs. apply list_elem_of_fmap in Hin as (d & -> & Hd').
    apply list_elem_of_fmap. exists d. split; [done|]. by apply Hd.
  - intros Hin. apply Habs. apply list_elem_of_fmap in Hin as (f & -> & Hf').
    apply list_elem_of_fmap. exists f. split; [done|]. by apply Hf.
Qed.

Lemma issue_all rs w :
  forOf rs (λ _ r, issue r) tt w
  = (Returned tt, set_requests (requests w ++ rs) w).
Proof.
  revert w. induction rs as [|r rs IH]; intros w.
  - simpl. unfold ret. destruct w. simpl. by rewrite app_nil_r.
  - cbn [forOf]. unfold bind, issue at 1. rewrite IH. simpl.
    by rewrite <- app_assoc.
Qed.

Section Clear.
Variable env : Env.

Lemma resumeSafeDelete_shrinks r : keeps shrinks (resumeSafeDelete env r).
Proof.
  intros w. unfold resumeSafeDelete, tryCatch, complete, bind, settle, remove,
    unless404.
  destruct (fate _) as [|e|]; simpl.
  - destruct r as [|?|c id| | |id| |]; simpl; try done.
    + case_decide; simpl; [|done]. split; simpl; [|done].
      intros c'. case_decide; [subst|done].
      intros d Hd. by apply list_elem_of_filter in Hd as [_ Hd].
    + case_decide; simpl; [|done]. split; simpl; [done|].
      intros f Hf. by apply list_elem_of_filter in Hf as [_ Hf].
  - by case_decide.
  - done.
Qed.

Lemma resumeSafeDelete_absent r w w' :
  honest404 env →
  (deletesFile r ∨ ∃ c, deletesFrom c r) →
  resumeSafeDelete env r w = (Returned tt, w') → absent r w'.
Proof.
  intros Hhonest Hdel.
  unfold resumeSafeDelete, tryCatch, complete, bind, settle, remove,
    unless404.
  destruct (fate _) as [|e|] eqn:Hfate; simpl.
  - destruct Hdel as [[id ->]|[c [id ->]]]; simpl.
    + case_decide as Hin; simpl; intros [= <-]; simpl; [|done].
      rewrite list_elem_of_fmap. intros (f & -> & Hf).
      by apply list_elem_of_filter in Hf as [Hne _].
    + case_decide as Hin; simpl; intros [= <-]; simpl; [|done].
      rewrite decide_True by done.
      rewrite list_elem_of_fmap. intros (d & -> & Hd).
      by apply list_elem_of_filter in Hd as [Hne _].
  - rewrite decide_False by (by eapply Hhonest). done.
  - done.
Qed.

Lemma awaitAll_shrinks n flying stalled :
  keeps shrinks (awaitAll env (resumeSafeDelete env) n flying stalled).
Proof.
  apply keeps_awaitAll; [apply _ | intros r _; apply resumeSafeDelete_shrinks|].
  by intros l w.
Qed.

(** A [Promise.all] of safe deletions that is fulfilled: every deletion
    has settled, and every record named is gone. *)
Lemma awaitAll_fulfilled n : ∀ (flying stalled : list Request) (w w' : World),
  honest404 env →
  (∀ r, r ∈ flying → deletesFile r ∨ ∃ c, deletesFrom c r) →
  length flying ≤ n →
  awaitAll env (resumeSafeDelete env) n flying stalled w = (Returned tt, w') →
  stalled = [] ∧ inflight w' = [] ∧ ∀ r, r ∈ flying → absent r w'.
Proof.
  induction n as [|n IH]; intros flying stalled w w' Hhonest Hdel Hlen Hrun.
  - destruct flying; [|simpl in Hlen; lia]. simpl in Hrun.
    destruct stalled; [|done]. simplify_eq. split; [done|]. split; [done|].
    intros r Hr. by apply elem_of_nil in Hr.
  - destruct flying as [|r0 flying].
    { simpl in Hrun. destruct stalled; [|done]. simplify_eq.
      split; [done|]. split; [done|]. intros r Hr. by apply elem_of_nil in Hr. }
    cbn [awaitAll] in Hrun.
    set (i := schedule env (tick w) `mod` length (r0 :: flying)) in *.
    assert (Hi : i < length (r0 :: flying))
      by (apply Nat.mod_upper_bound; done).
    destruct (lookup_lt_is_Some_2 _ _ Hi) as [r Hr].
    rewrite (nth_lookup_Some _ _ _ _ Hr) in Hrun.
    assert (Hperm := delete_Permutation _ _ _ Hr).
    assert (Hrest : ∀ r', r' ∈ delete i (r0 :: flying) →
              deletesFile r' ∨ ∃ c, deletesFrom c r').
    { intros r' Hr'. apply Hdel. by eapply list_elem_of_delete_inv. }
    assert (Hlen' : length (delete i (r0 :: flying)) ≤ n).
    { rewrite length_delete by (by eexists). simpl in *. lia. }
    destruct (resumeSafeDelete env r w) as [[[]|e|] w1] eqn:Hres.
    + destruct (IH _ _ _ _ Hhonest Hrest Hlen' Hrun) as (-> & Hfl & Habs).
      split; [done|]. split; [done|].
      intros r'. rewrite Hperm. intros [->|Hr']%elem_of_cons; [|by apply Habs].
      eapply absent_shrinks.
      * eapply resumeSafeDelete_absent; [done | | exact Hres].
        apply Hdel. by eapply list_elem_of_lookup_2.
      * pose proof (awaitAll_shrinks n (delete i (r0 :: flying)) [] w1) as Hs.
        by rewrite Hrun in Hs.
    + done.
    + destruct (IH _ _ _ _ Hhonest Hrest Hlen' Hrun) as (Hnil & _).
      by destruct stalled.
Qed.
End Clear.

Section ClearPhase.
Variable env : Env.

Lemma listDocuments_eval c w :
  listDocuments env c w
  = let a := oracle env (tick w) (ListDocuments c) in
    match fate a with
    | Settle => (Returned (cut (page a) (documents w c)),
                 sent (ListDocuments c) w)
    | Reject e => (Thrown e, sent (ListDocuments c) w)
    | Hang => (Pending, sent (ListDocuments c) w)
    end.
Proof.
  unfold listDocuments, bind, issue, settle; simpl. by destruct (fate _).
Qed.

Lemma listFiles_eval w :
  listFiles env w
  = let a := oracle env (tick w) ListFiles in
    match fate a with
    | Settle => (Returned (cut (page a) (files w)), sent ListFiles w)
    | Reject e => (Thrown e, sent ListFiles w)
    | Hang => (Pending, sent ListFiles w)
    end.
Proof.
  unfold listFiles, bind, issue, settle; simpl. by destruct (fate _).
Qed.

(** A safe deletion is its request leaving, then [resumeSafeDelete]. *)
Lemma safeDeleteDocument_split c id w :
  safeDeleteDocument env c id w
  = (issue (DeleteDocument c id);; resumeSafeDelete env (DeleteDocument c id)) w.
Proof. reflexivity. Qed.

Lemma safeDeleteFile_split id w :
  safeDeleteFile env id w
  = (issue (DeleteFile id);; resumeSafeDelete env (DeleteFile id)) w.
Proof. reflexivity. Qed.

Lemma promiseAll_eval resume rs w :
  promiseAll env resume rs w
  = awaitAll env resume (length rs) rs []
      (set_requests (requests w ++ rs) w).
Proof. unfold promiseAll, bind. by rewrite issue_all. Qed.

(** A safe deletion whose request is served returns. *)
Lemma resumeSafeDelete_served r w :
  fate (oracle env (tick w) r) = Settle →
  (resumeSafeDelete env r w).1 = Returned tt.
Proof.
  intros Hfate.
  unfold resumeSafeDelete, tryCatch, complete, bind, settle, remove.
  rewrite Hfate. destruct r; simpl; try done; by case_decide.
Qed.

Lemma awaitAll_returns n : ∀ (flying : list Request) (w : World),
  (∀ t r, r ∈ flying → fate (oracle env t r) = Settle) →
  length flying ≤ n →
  (awaitAll env (resumeSafeDelete env) n flying [] w).1 = Returned tt.
Proof.
  induction n as [|n IH]; intros flying w Hs Hlen.
  - destruct flying; [done | simpl in Hlen; lia].
  - destruct flying as [|r0 flying]; [done|].
    cbn [awaitAll].
    set (i := schedule env (tick w) `mod` length (r0 :: flying)).
    pose proof (picked_in_flight (schedule env (tick w)) r0 flying) as Hin.
    fold i in Hin.
    pose proof (resumeSafeDelete_served _ w (Hs (tick w) _ Hin)) as Hres.
    destruct (resumeSafeDelete env _ w) as [[[]|e|] w1]; simpl in Hres;
      try done.
    apply IH.
    + intros t r Hr. apply Hs. by eapply list_elem_of_delete_inv.
    + rewrite length_delete.
      * simpl in *. lia.
      * apply lookup_lt_is_Some_2, Nat.mod_upper_bound. done.
Qed.

Lemma awaitAll_requests resume n flying stalled :
  (∀ r, keeps (same requests) (resume r)) →
  keeps (same requests) (awaitAll env resume n flying stalled).
Proof.
  intros Hr. apply keeps_awaitAll; [apply _ | by intros r _ | by intros l w].
Qed.

Lemma resumeSafeDelete_requests r :
  keeps (same requests) (resumeSafeDelete env r).
Proof. solve_keeps. Qed.

Lemma clearAll_documents c c' :
  c' ≠ c → keeps (same (λ w, documents w c')) (clearAll env c).
Proof.
  intros Hc. unfold clearAll, promiseAll. solve_keeps.
  apply keeps_awaitAll; [apply _ | | by intros l w].
  intros r (doc & -> & _)%list_elem_of_fmap. solve_keeps.
Qed.

Lemma clearAll_files c : keeps (same files) (clearAll env c).
Proof.
  unfold clearAll, promiseAll. solve_keeps.
  apply keeps_awaitAll; [apply _ | | by intros l w].
  intros r (doc & -> & _)%list_elem_of_fmap. solve_keeps.
Qed.

Lemma clearStorage_documents c :
  keeps (same (λ w, documents w c)) (clearStorage env).
Proof.
  unfold clearStorage, promiseAll. solve_keeps.
  apply keeps_awaitAll; [apply _ | | by intros l w].
  intros r (file & -> & _)%list_elem_of_fmap. solve_keeps.
Qed.

Lemma clearAll_shrinks c : keeps shrinks (clearAll env c).
Proof.
  unfold clearAll. apply keeps_bind; [apply _ | |].
  - intros w. rewrite listDocuments_eval. simpl. by destruct (fate _).
  - intros docs w. rewrite promiseAll_eval.
    pose proof (awaitAll_shrinks env
      (length ((λ doc, DeleteDocument c (doc_id doc)) <$> docs))
      ((λ doc, DeleteDocument c (doc_id doc)) <$> docs) []
      (set_requests (requests w
         ++ ((λ doc, DeleteDocument c (doc_id doc)) <$> docs)) w)) as Hs.
    destruct Hs as [Hd Hf]. split; simpl in *; done.
Qed.

Lemma clearStorage_shrinks : keeps shrinks (clearStorage env).
Proof.
  unfold clearStorage. apply keeps_bind; [apply _ | |].
  - intros w. rewrite listFiles_eval. simpl. by destruct (fate _).
  - intros fs w. rewrite promiseAll_eval.
    pose proof (awaitAll_shrinks env
      (length ((λ file, DeleteFile (file_id file)) <$> fs))
      ((λ file, DeleteFile (file_id file)) <$> fs) []
      (set_requests (requests w
         ++ ((λ file, DeleteFile (file_id file)) <$> fs)) w)) as Hs.
    destruct Hs as [Hd Hf]. split; simpl in *; done.
Qed.
End ClearPhase.

Section PromiseAll.
Variable env : Env.

Lemma resumeSafeDelete_settled r w :
  fate (oracle env (tick w) r) = Settle →
  ∃ w1, resumeSafeDelete env r w = (Returned tt, w1) ∧ tick w1 = S (tick w).
Proof.
  intros Hfate.
  unfold resumeSafeDelete, tryCatch, complete, bind, settle, remove.
  rewrite Hfate. destruct r; simpl; try (by eexists); case_decide;
    by eexists.
Qed.

Lemma resumeSafeDelete_rejected r w e :
  fate (oracle env (tick w) r) = Reject e →
  Error.code e ≠ Some 404%Z →
  resumeSafeDelete env r w = (Thrown e, set_tick (S (tick w)) w).
Proof.
  intros Hfate Hcode.
  unfold resumeSafeDelete, tryCatch, complete, bind, settle, unless404.
  rewrite Hfate. by rewrite decide_False.
Qed.

Lemma resumeSafeDelete_tick r w :
  tick (resumeSafeDelete env r w).2 = S (tick w).
Proof.
  unfold resumeSafeDelete, tryCatch, complete, bind, settle, remove,
    unless404.
  destruct (fate _) as [|e|]; simpl; [|by case_decide|done].
  destruct r; simpl; try done; by case_decide.
Qed.

Lemma resumeSafeDelete_harmless r w :
  harmless (fate (oracle env (tick w) r)) →
  ∀ e, (resumeSafeDelete env r w).1 ≠ Thrown e.
Proof.
  intros Hfate e.
  unfold resumeSafeDelete, tryCatch, complete, bind, settle, remove,
    unless404.
  destruct (fate _) as [|e'|]; simpl; [| |done].
  - destruct r; simpl; try done; by case_decide.
  - by rewrite decide_True by (by apply Hfate).
Qed.

Lemma resumeSafeDelete_answered r w :
  harmless (fate (oracle env (tick w) r)) →
  fate (oracle env (tick w) r) ≠ Hang →
  (resumeSafeDelete env r w).1 = Returned tt.
Proof.
  intros Hfate Hlive.
  unfold resumeSafeDelete, tryCatch, complete, bind, settle, remove,
    unless404.
  destruct (fate _) as [|e'|]; simpl; [| |done].
  - destruct r; simpl; try done; by case_decide.
  - by rewrite decide_True by (by apply Hfate).
Qed.

Lemma settling_Permutation n : ∀ t (flying : list Request),
  length flying = n → settling env t n flying ≡ₚ flying.
Proof.
  induction n as [|n IH]; intros t flying Hn.
  - by destruct flying.
  - destruct flying as [|r0 flying]; [done|]. cbn [settling].
    set (i := schedule env t `mod` length (r0 :: flying)).
    assert (Hi : i < length (r0 :: flying))
      by (apply Nat.mod_upper_bound; done).
    destruct (lookup_lt_is_Some_2 _ _ Hi) as [r Hr].
    change (nth i (r0 :: flying) r0
              :: settling env (S t) n (delete i (r0 :: flying))
            ≡ₚ r0 :: flying).
    assert (Hnth : nth i (r0 :: flying) r0 = r) by (by apply nth_lookup_Some).
    rewrite Hnth.
    rewrite (delete_Permutation _ _ _ Hr) at 2. f_equiv. apply IH.
    rewrite length_delete by (by eexists). simpl in *. lia.
Qed.

(** A [Promise.all] of safe deletions is rejected at the first deletion
    to settle with a failure other than 404, the deletions that come
    later in the order unsettled. *)
Lemma awaitAll_first_failure k :
  ∀ n (flying stalled : list Request) (w : World) q e,
  length flying = n →
  settling env (tick w) n flying !! k = Some q →
  fate (oracle env (tick w + k) q) = Reject e →
  Error.code e ≠ Some 404%Z →
  (∀ j q', j < k → settling env (tick w) n flying !! j = Some q' →
           harmless (fate (oracle env (tick w + j) q'))) →
  ∃ w',
    awaitAll env (resumeSafeDelete env) n flying stalled w = (Thrown e, w') ∧
    (∀ j q', k < j → settling env (tick w) n flying !! j = Some q' →
             q' ∈ inflight w') ∧
    ((∀ j q', j < k → settling env (tick w) n flying !! j = Some q' →
              fate (oracle env (tick w + j) q') ≠ Hang) →
     length (inflight w') = n - S k + length stalled).
Proof.
  induction k as [|k IH];
    intros n flying stalled w q e Hn Hq Hfate Hcode Hbefore.
  - destruct n as [|n]; [by destruct flying|].
    destruct flying as [|r0 flying]; [done|].
    cbn [settling] in Hq. cbn [awaitAll].
    set (i := schedule env (tick w) `mod` length (r0 :: flying)) in *.
    set (r := nth i (r0 :: flying) r0) in *.
    assert (Hqr : r = q) by (by injection Hq). subst q.
    rewrite Nat.add_0_r in Hfate.
    rewrite (resumeSafeDelete_rejected _ w e) by done.
    assert (Hlen : length (delete i (r0 :: flying)) = n).
    { rewrite length_delete.
      - simpl in *. lia.
      - apply lookup_lt_is_Some_2, Nat.mod_upper_bound. done. }
    eexists. split; [done|]. simpl. split.
    + intros j q' Hj Hq'. destruct j as [|j]; [lia|].
      cbn [settling] in Hq'. fold i in Hq'. simpl in Hq'.
      apply elem_of_app. left.
      rewrite <- (settling_Permutation n (S (tick w)) _ Hlen).
      by eapply list_elem_of_lookup_2.
    + intros _. rewrite length_app, Hlen. lia.
  - destruct n as [|n]; [by destruct flying|].
    destruct flying as [|r0 flying]; [done|].
    cbn [settling] in Hq, Hbefore |- *. cbn [awaitAll].
    set (i := schedule env (tick w) `mod` length (r0 :: flying)) in *.
    set (r := nth i (r0 :: flying) r0) in *.
    assert (Hlen : length (delete i (r0 :: flying)) = n).
    { rewrite length_delete.
      - simpl in *. lia.
      - apply lookup_lt_is_Some_2, Nat.mod_upper_bound. done. }
    assert (Hfirst : harmless (fate (oracle env (tick w) r))).
    { rewrite <- (Nat.add_0_r (tick w)). apply (Hbefore 0); [lia | done]. }
    pose proof (resumeSafeDelete_tick r w) as Htick.
    pose proof (resumeSafeDelete_harmless r w Hfirst) as Hsafe.
    pose proof (resumeSafeDelete_answered r w Hfirst) as Hanswered.
    assert (Hstep : ∀ stalled',
      ∃ w',
        awaitAll env (resumeSafeDelete env) n (delete i (r0 :: flying))
          stalled' (resumeSafeDelete env r w).2 = (Thrown e, w') ∧
        (∀ j q', S k < j →
                 (r :: settling env (S (tick w)) n (delete i (r0 :: flying)))
                 !! j = Some q' → q' ∈ inflight w') ∧
        ((∀ j q', j < S k →
                  (r :: settling env (S (tick w)) n (delete i (r0 :: flying)))
                  !! j = Some q' →
                  fate (oracle env (tick w + j) q') ≠ Hang) →
         length (inflight w') = n - S k + length stalled')).
    { intros stalled'.
      destruct (IH n (delete i (r0 :: flying)) stalled'
                  (resumeSafeDelete env r w).2 q e)
        as (w' & Hrun & Hlater & Hcount); try done.
      - by rewrite Htick.
      - rewrite Htick. by replace (S (tick w) + k) with (tick w + S k) by lia.
      - intros j q' Hj Hq'. rewrite Htick in *.
        replace (S (tick w) + j) with (tick w + S j) by lia.
        apply (Hbefore (S j)); [lia | done].
      - exists w'. split; [done|]. split.
        + intros j q' Hj Hq'. destruct j as [|j]; [lia|].
          apply (Hlater j); [lia | by rewrite Htick].
        + intros Hlive. apply Hcount. intros j q' Hj Hq'. rewrite Htick in *.
          replace (S (tick w) + j) with (tick w + S j) by lia.
          apply (Hlive (S j)); [lia | done]. }
    destruct (resumeSafeDelete env r w) as [[[]|e'|] w1] eqn:Hres;
      simpl in Hsafe, Hanswered, Hstep.
    + destruct (Hstep stalled) as (w' & Hrun & Hlater & Hcount).
      exists w'. split; [done|]. split; [done|].
      intros Hlive. rewrite (Hcount Hlive). lia.
    + by destruct (Hsafe e').
    + destruct (Hstep (stalled ++ [r])) as (w' & Hrun & Hlater & Hcount).
      exists w'. split; [done|]. split; [done|].
      intros Hlive. exfalso.
      assert (Hzero : fate (oracle env (tick w) r) ≠ Hang).
      { rewrite <- (Nat.add_0_r (tick w)). apply (Hlive 0); [lia | done]. }
      by specialize (Hanswered Hzero).
Qed.

(** It is not rejected when no deletion fails with anything but 404 ... *)
Lemma awaitAll_no_failure n : ∀ (flying stalled : list Request) (w : World),
  length flying = n →
  (∀ k q, settling env (tick w) n flying !! k = Some q →
          harmless (fate (oracle env (tick w + k) q))) →
  ∀ e, (awaitAll env (resumeSafeDelete env) n flying stalled w).1 ≠ Thrown e.
Proof.
  induction n as [|n IH]; intros flying stalled w Hn Hall e.
  - simpl. by destruct flying, stalled.
  - destruct flying as [|r0 flying]; [done|].
    cbn [settling] in Hall. cbn [awaitAll].
    set (i := schedule env (tick w) `mod` length (r0 :: flying)) in *.
    set (r := nth i (r0 :: flying) r0) in *.
    assert (Hlen : length (delete i (r0 :: flying)) = n).
    { rewrite length_delete.
      - simpl in *. lia.
      - apply lookup_lt_is_Some_2, Nat.mod_upper_bound. done. }
    assert (Hfirst : harmless (fate (oracle env (tick w) r))).
    { rewrite <- (Nat.add_0_r (tick w)). by apply (Hall 0). }
    pose proof (resumeSafeDelete_tick r w) as Htick.
    pose proof (resumeSafeDelete_harmless r w Hfirst) as Hsafe.
    assert (Hrest : ∀ k q,
      settling env (tick (resumeSafeDelete env r w).2) n
        (delete i (r0 :: flying)) !! k = Some q →
      harmless (fate (oracle env (tick (resumeSafeDelete env r w).2 + k) q))).
    { intros k q Hq. rewrite Htick in *.
      replace (S (tick w) + k) with (tick w + S k) by lia.
      by apply (Hall (S k)). }
    destruct (resumeSafeDelete env r w) as [[[]|e'|] w1];
      simpl in Hsafe, Hrest; [by apply IH | by destruct (Hsafe e') |
                              by apply IH].
Qed.

(** ... and is fulfilled when, moreover, every deletion is answered. *)
Lemma awaitAll_completes n : ∀ (flying : list Request) (w : World),
  length flying = n →
  (∀ k q, settling env (tick w) n flying !! k = Some q →
          harmless (fate (oracle env (tick w + k) q)) ∧
          fate (oracle env (tick w + k) q) ≠ Hang) →
  (awaitAll env (resumeSafeDelete env) n flying [] w).1 = Returned tt.
Proof.
  induction n as [|n IH]; intros flying w Hn Hall.
  - by destruct flying.
  - destruct flying as [|r0 flying]; [done|].
    cbn [settling] in Hall. cbn [awaitAll].
    set (i := schedule env (tick w) `mod` length (r0 :: flying)) in *.
    set (r := nth i (r0 :: flying) r0) in *.
    assert (Hlen : length (delete i (r0 :: flying)) = n).
    { rewrite length_delete.
      - simpl in *. lia.
      - apply lookup_lt_is_Some_2, Nat.mod_upper_bound. done. }
    assert (Hfirst : harmless (fate (oracle env (tick w) r)) ∧
                     fate (oracle env (tick w) r) ≠ Hang).
    { rewrite <- (Nat.add_0_r (tick w)). by apply (Hall 0). }
    pose proof (resumeSafeDelete_tick r w) as Htick.
    pose proof (resumeSafeDelete_answered r w (proj1 Hfirst) (proj2 Hfirst))
      as Hanswered.
    assert (Hrest : ∀ k q,
      settling env (tick (resumeSafeDelete env r w).2) n
        (delete i (r0 :: flying)) !! k = Some q →
      harmless (fate (oracle env (tick (resumeSafeDelete env r w).2 + k) q)) ∧
      fate (oracle env (tick (resumeSafeDelete env r w).2 + k) q) ≠ Hang).
    { intros k q Hq. rewrite Htick in *.
      replace (S (tick w) + k) with (tick w + S k) by lia.
      by apply (Hall (S k)). }
    destruct (resumeSafeDelete env r w) as [[[]|e'|] w1];
      simpl in Hanswered, Hrest; [by apply IH | done | done].
Qed.

Lemma promiseAll_requests rs w :
  requests (promiseAll env (resumeSafeDelete env) rs w).2 = requests w ++ rs.
Proof.
  rewrite promiseAll_eval.
  apply (awaitAll_requests env (resumeSafeDelete env) _ _ _
           (resumeSafeDelete_requests env)).
Qed.

Lemma promiseAll_fulfilled rs w w' :
  honest404 env →
  (∀ r, r ∈ rs → deletesFile r ∨ ∃ c, deletesFrom c r) →
  promiseAll env (resumeSafeDelete env) rs w = (Returned tt, w') →
  inflight w' = [] ∧ ∀ r, r ∈ rs → absent r w'.
Proof.
  intros Hhonest Hdel. rewrite promiseAll_eval. intros Hrun.
  by destruct (awaitAll_fulfilled env _ _ _ _ _ Hhonest Hdel
                 (Nat.le_refl _) Hrun) as (_ & ? & ?).
Qed.

Lemma promiseAll_shrinks rs w :
  shrinks w (promiseAll env (resumeSafeDelete env) rs w).2.
Proof.
  rewrite promiseAll_eval.
  pose proof (awaitAll_shrinks env (length rs) rs []
                (set_requests (requests w ++ rs) w)) as [Hd Hf].
  by split.
Qed.
End PromiseAll.

(** A [Promise.all] that is fulfilled has no call left unsettled. *)
Lemma awaitAll_settled env n : ∀ (flying stalled : list Request) w w',
  awaitAll env (resumeSafeDelete env) n flying stalled w = (Returned tt, w') →
  inflight w' = [].
Proof.
  induction n as [|n IH]; intros flying stalled w w' Hr.
  - simpl in Hr. destruct (flying ++ stalled); by simplify_eq.
  - destruct flying as [|r0 flying].
    + simpl in Hr. destruct stalled; by simplify_eq.
    + cbn [awaitAll] in Hr.
      destruct (resumeSafeDelete env _ w) as [[[]|e|] w2];
        [by eapply IH | done | by eapply IH].
Qed.

Lemma promiseAll_clears env {A} (lister : Async (list A)) (mk : A → Request)
    (listing : Request) (w w1 : World) (l : list A) :
  (∀ x, deletesFile (mk x) ∨ ∃ c, deletesFrom c (mk x)) →
  lister w = (Returned l, w1) →
  requests w1 = requests w ++ [listing] →
  clears env (l <- lister; promiseAll env (resumeSafeDelete env) (mk <$> l))
    listing (mk <$> l) w w1.
Proof.
  intros Hmk Hlist Hreq. unfold clears.
  rewrite (bind_Returned _ _ _ _ _ Hlist).
  split; [|split; [|split; [|split; [|split]]]].
  - rewrite promiseAll_requests, Hreq. by rewrite <- app_assoc.
  - intros Hret.
    destruct (promiseAll env (resumeSafeDelete env) (mk <$> l) w1)
      as [o w'] eqn:Hrun. simpl in Hret. subst o. simpl.
    split.
    + rewrite promiseAll_eval in Hrun. by eapply awaitAll_settled.
    + intros Hhonest.
      eapply promiseAll_fulfilled; [done | | exact Hrun].
      intros r (x & -> & _)%list_elem_of_fmap. apply Hmk.
  - by apply settling_Permutation.
  - intros k q e Hq Hfate Hcode Hbefore.
    rewrite promiseAll_eval.
    destruct (awaitAll_first_failure env k (length (mk <$> l)) (mk <$> l) []
                (set_requests (requests w1 ++ (mk <$> l)) w1) q e)
      as (w' & Hrun & Hlater & Hcount); try done.
    rewrite Hrun. simpl. split; [done|]. split; [done|]. split.
    + intros Hlive. rewrite (Hcount Hlive). simpl. lia.
    + intros B rest. apply bind_Thrown.
      by rewrite (bind_Returned _ _ _ _ _ Hlist), promiseAll_eval.
  - intros Hall e. rewrite promiseAll_eval.
    by apply awaitAll_no_failure.
  - intros Hall. rewrite promiseAll_eval.
    by apply awaitAll_completes.
Qed.

Section BulkClear.
Variable env : Env.

Lemma listDocuments_returned c w docs w1 :
  listDocuments env c w = (Returned docs, w1) →
  fate (oracle env (tick w) (ListDocuments c)) = Settle ∧
  docs = cut (page (oracle env (tick w) (ListDocuments c))) (documents w c) ∧
  w1 = sent (ListDocuments c) w.
Proof.
  rewrite listDocuments_eval. simpl.
  destruct (fate _); [|done|done]. by intros [= <- <-].
Qed.

Lemma listFiles_returned w fs w1 :
  listFiles env w = (Returned fs, w1) →
  fate (oracle env (tick w) ListFiles) = Settle ∧
  fs = cut (page (oracle env (tick w) ListFiles)) (files w) ∧
  w1 = sent ListFiles w.
Proof.
  rewrite listFiles_eval. simpl.
  destruct (fate _); [|done|done]. by intros [= <- <-].
Qed.

Lemma clearAll_clears c w docs w1 :
  listDocuments env c w = (Returned docs, w1) →
  clears env (clearAll env c) (ListDocuments c)
    ((λ doc, DeleteDocument c (doc_id doc)) <$> docs) w w1.
Proof.
  intros Hlist. apply promiseAll_clears; [|done|].
  - intros doc. right. exists c. by eexists.
  - by destruct (listDocuments_returned _ _ _ _ Hlist) as (_ & _ & ->).
Qed.

Lemma clearStorage_clears w fs w1 :
  listFiles env w = (Returned fs, w1) →
  clears env (clearStorage env) ListFiles
    ((λ file, DeleteFile (file_id file)) <$> fs) w w1.
Proof.
  intros Hlist. apply promiseAll_clears; [|done|].
  - intros file. left. by eexists.
  - by destruct (listFiles_returned _ _ _ Hlist) as (_ & _ & ->).
Qed.

(** A bulk clear that returns, after a listing that named every
    document of the collection, leaves the collection empty. *)
Lemma clearAll_empties c w w1 :
  honest404 env →
  listDocuments env c w = (Returned (documents w c), w1) →
  (clearAll env c w).1 = Returned tt →
  documents (clearAll env c w).2 c = [].
Proof.
  intros Hhonest Hlist Hret.
  destruct (clearAll_clears c w _ w1 Hlist) as (_ & Hdone & _).
  destruct (Hdone Hret) as [_ Habs]. specialize (Habs Hhonest).
  pose proof (clearAll_shrinks env c w) as [Hsub _].
  apply elem_of_nil_inv. intros d Hd.
  assert (Hin : DeleteDocument c (doc_id d)
                ∈ (λ doc, DeleteDocument c (doc_id doc)) <$> documents w c).
  { apply list_elem_of_fmap. exists d. split; [done|]. by apply Hsub. }
  apply (Habs _ Hin). apply list_elem_of_fmap. by exists d.
Qed.

Lemma clearStorage_empties w w1 :
  honest404 env →
  listFiles env w = (Returned (files w), w1) →
  (clearStorage env w).1 = Returned tt →
  files (clearStorage env w).2 = [].
Proof.
  intros Hhonest Hlist Hret.
  destruct (clearStorage_clears w _ w1 Hlist) as (_ & Hdone & _).
  destruct (Hdone Hret) as [_ Habs]. specialize (Habs Hhonest).
  pose proof (clearStorage_shrinks env w) as [_ Hsub].
  apply elem_of_nil_inv. intros f Hf.
  assert (Hin : DeleteFile (file_id f)
                ∈ (λ file, DeleteFile (file_id file)) <$> files w).
  { apply list_elem_of_fmap. exists f. split; [done|]. by apply Hsub. }
  apply (Habs _ Hin). apply list_elem_of_fmap. by exists f.
Qed.
End BulkClear.

(** C9, as stated, fails: a bulk clear can complete while a deletion it
    sent has not settled.  With two categories in the store and a store
    that fails deletions, [clearAll] throws when the first deletion
    fails, the second still in flight.  [seed] as a whole has then
    returned too. *)
Lemma bulk_clear_completes_early :
  let r := clearAll deleteFailingEnv categoriesCollectionId stockedWorld in
  r.1 = Thrown serverError ∧
  inflight r.2 = [DeleteDocument categoriesCollectionId 1] ∧
  requests r.2
  = [ListDocuments categoriesCollectionId;
     DeleteDocument categoriesCollectionId 0;
     DeleteDocument categoriesCollectionId 1] ∧
  (seed deleteFailingEnv sample stockedWorld).1 = Returned tt ∧
  inflight (seed deleteFailingEnv sample stockedWorld).2
  = [DeleteDocument categoriesCollectionId 1] ∧
  ¬ (∀ env c w,
       (clearAll env c w).1 ≠ Pending → inflight (clearAll env c w).2 = []).
Proof.
  repeat split; try reflexivity.
  intros Hall.
  by specialize (Hall deleteFailingEnv categoriesCollectionId stockedWorld
                   ltac:(done)).
Qed.

(** C9 (amended): bulk clear.  [clearAll] lists the collection once and
    sends one deletion per document listed, all of them before any
    settles.  It returns only when every deletion has settled, and then,
    the store reporting not-found only for records it does not have,
    every document listed is gone, so that the collection is empty when
    the listing named all of it.  The deletions settle in an order that
    the environment chooses.  When one of them fails with an error other
    than 404, none before it in that order having done so (whether they
    were served, failed with 404 or were never answered), [clearAll]
    throws that error at once, the deletions that come later in the
    order still in flight, and what follows [clearAll] in the caller
    does not run.  When none fails with an error other than 404,
    [clearAll] does not throw, and it returns if all are answered.
    [clearStorage] does the same with the files of the bucket. *)
Theorem bulk_clear env w :
  (∀ c docs w1,
     listDocuments env c w = (Returned docs, w1) →
     clears env (clearAll env c) (ListDocuments c)
       ((λ doc, DeleteDocument c (doc_id doc)) <$> docs) w w1 ∧
     (honest404 env → docs = documents w c →
      (clearAll env c w).1 = Returned tt →
      documents (clearAll env c w).2 c = [])) ∧
  (∀ fs w1,
     listFiles env w = (Returned fs, w1) →
     clears env (clearStorage env) ListFiles
       ((λ file, DeleteFile (file_id file)) <$> fs) w w1 ∧
     (honest404 env → fs = files w →
      (clearStorage env w).1 = Returned tt →
      files (clearStorage env w).2 = [])).
Proof.
  split.
  - intros c docs w1 Hlist. split; [by apply clearAll_clears|].
    intros Hhonest -> Hret. by eapply clearAll_empties.
  - intros fs w1 Hlist. split; [by apply clearStorage_clears|].
    intros Hhonest -> Hret. by eapply clearStorage_empties.
Qed.

(** With a store that serves every request, the two categories are
    listed, deleted, and gone.  With a store that serves the deletion of
    the first and fails that of the second, [clearAll] throws when the
    second settles: the first category is gone, the second is there.
    With a store that fails every deletion, it throws when the first
    settles. *)
Lemma bulk_clear_witness :
  let r := clearAll servingEnv categoriesCollectionId stockedWorld in
  let r' := clearAll oneDeleteFailingEnv categoriesCollectionId stockedWorld in
  r.1 = Returned tt ∧
  inflight r.2 = [] ∧
  documents r.2 categoriesCollectionId = [] ∧
  r'.1 = Thrown serverError ∧
  length (inflight r'.2) = 0 ∧
  doc_id <$> documents r'.2 categoriesCollectionId = [1] ∧
  (clearAll deleteFailingEnv categoriesCollectionId stockedWorld).1
  = Thrown serverError.
Proof.
  pose proof (bulk_clear servingEnv stockedWorld) as [Hdocs _].
  destruct (Hdocs categoriesCollectionId
              (documents stockedWorld categoriesCollectionId)
              (sent (ListDocuments categoriesCollectionId) stockedWorld)
              eq_refl) as [(_ & Hdone & _) Hempty].
  destruct (Hdone eq_refl) as [Hsettled _].
  pose proof (bulk_clear oneDeleteFailingEnv stockedWorld) as [Hone _].
  destruct (Hone categoriesCollectionId
              (documents stockedWorld categoriesCollectionId)
              (sent (ListDocuments categoriesCollectionId) stockedWorld)
              eq_refl) as [(_ & _ & _ & Hsecond & _) _].
  destruct (Hsecond 1 (DeleteDocument categoriesCollectionId 1) serverError
              eq_refl eq_refl) as (Hthrown' & _ & Hcount & _).
  { discriminate. }
  { intros j q' Hj Hq'. destruct j as [|j]; [|lia].
    injection Hq' as <-. intros e'. discriminate. }
  pose proof (bulk_clear deleteFailingEnv stockedWorld) as [Hfail _].
  destruct (Hfail categoriesCollectionId
              (documents stockedWorld categoriesCollectionId)
              (sent (ListDocuments categoriesCollectionId) stockedWorld)
              eq_refl) as [(_ & _ & _ & Hfirst & _) _].
  destruct (Hfirst 0 (DeleteDocument categoriesCollectionId 0) serverError
              eq_refl eq_refl) as (Hthrown & _).
  { discriminate. }
  { intros j q' Hj. lia. }
  split; [reflexivity|]. split; [exact Hsettled|]. split.
  { apply Hempty; [|reflexivity|reflexivity]. by intros t q e. }
  split; [exact Hthrown'|]. split.
  { apply Hcount. intros j q' Hj Hq'. destruct j as [|j]; [|lia].
    injection Hq' as <-. discriminate. }
  split; [reflexivity | exact Hthrown].
Defined.

(** ** The clearing phase as a whole *)

Section ClearReturns.
Variable env : Env.
Hypothesis lists_served :
  (∀ t c, fate (oracle env t (ListDocuments c)) = Settle) ∧
  (∀ t, fate (oracle env t ListFiles) = Settle).

Lemma cut_subseteq {A} p (l : list A) : cut p l ⊆ l.
Proof.
  destruct p as [k|]; simpl; [|done].
  apply sublist_subseteq, sublist_take.
Qed.

Lemma clearAll_returns c w :
  (∀ t d, d ∈ documents w c →
          fate (oracle env t (DeleteDocument c (doc_id d))) = Settle) →
  (clearAll env c w).1 = Returned tt.
Proof.
  intros Hdel. unfold clearAll, bind. rewrite listDocuments_eval. simpl.
  rewrite (proj1 lists_served). rewrite promiseAll_eval.
  apply awaitAll_returns; [|done].
  intros t r (d & -> & Hd)%list_elem_of_fmap. apply Hdel.
  by eapply cut_subseteq.
Qed.

Lemma clearStorage_returns w :
  (∀ t f, f ∈ files w →
          fate (oracle env t (DeleteFile (file_id f))) = Settle) →
  (clearStorage env w).1 = Returned tt.
Proof.
  intros Hdel. unfold clearStorage, bind. rewrite listFiles_eval. simpl.
  rewrite (proj2 lists_served). rewrite promiseAll_eval.
  apply awaitAll_returns; [|done].
  intros t r (f & -> & Hf)%list_elem_of_fmap. apply Hdel.
  by eapply cut_subseteq.
Qed.

Lemma clear_steps w :
  (∀ t c d, d ∈ documents w c →
            fate (oracle env t (DeleteDocument c (doc_id d))) = Settle) →
  (∀ t f, f ∈ files w →
          fate (oracle env t (DeleteFile (file_id f))) = Settle) →
  (clear env w).1 = Returned tt ∧
  shrinks w (clear env w).2 ∧
  (honest404 env → (∀ t q, page (oracle env t q) = None) →
   (∀ c, documents (clear env w).2 c = []) ∧ files (clear env w).2 = []).
Proof.
  intros Hdocs Hfiles.
  assert (Hstep : ∀ c w0, shrinks w w0 →
    (clearAll env c w0).1 = Returned tt ∧
    shrinks w (clearAll env c w0).2 ∧
    (honest404 env → (∀ t q, page (oracle env t q) = None) →
     documents (clearAll env c w0).2 c = [])).
  { intros c w0 Hs. assert (Hret : (clearAll env c w0).1 = Returned tt).
    { apply clearAll_returns. intros t d Hd. apply Hdocs.
      by apply (proj1 Hs c). }
    split; [done|]. split; [etrans; [exact Hs | apply clearAll_shrinks]|].
    intros Hhonest Hpage.
    eapply (clearAll_empties env c w0 (sent (ListDocuments c) w0));
      [done | | done].
    rewrite listDocuments_eval. simpl.
    by rewrite (proj1 lists_served), Hpage. }
  assert (Hlast : ∀ w0, shrinks w w0 →
    (clearStorage env w0).1 = Returned tt ∧
    shrinks w (clearStorage env w0).2 ∧
    (honest404 env → (∀ t q, page (oracle env t q) = None) →
     files (clearStorage env w0).2 = [])).
  { intros w0 Hs. assert (Hret : (clearStorage env w0).1 = Returned tt).
    { apply clearStorage_returns. intros t f Hf. apply Hfiles.
      by apply (proj2 Hs). }
    split; [done|]. split; [etrans; [exact Hs | apply clearStorage_shrinks]|].
    intros Hhonest Hpage.
    eapply (clearStorage_empties env w0 (sent ListFiles w0)); [done | | done].
    rewrite listFiles_eval. simpl.
    by rewrite (proj2 lists_served), Hpage. }
  set (wa := set_console (console w ++ [Clearing]) w).
  assert (Hsa : shrinks w wa) by done.
  destruct (Hstep categoriesCollectionId wa Hsa) as (Hr1 & Hs1 & He1).
  destruct (clearAll env categoriesCollectionId wa) as [o1 w1] eqn:H1.
  simpl in Hr1, Hs1, He1. subst o1.
  destruct (Hstep customizationsCollectionId w1 Hs1) as (Hr2 & Hs2 & He2).
  destruct (clearAll env customizationsCollectionId w1) as [o2 w2] eqn:H2.
  simpl in Hr2, Hs2, He2. subst o2.
  destruct (Hstep menuCollectionId w2 Hs2) as (Hr3 & Hs3 & He3).
  destruct (clearAll env menuCollectionId w2) as [o3 w3] eqn:H3.
  simpl in Hr3, Hs3, He3. subst o3.
  destruct (Hstep menuCustomizationsCollectionId w3 Hs3) as (Hr4 & Hs4 & He4).
  destruct (clearAll env menuCustomizationsCollectionId w3) as [o4 w4] eqn:H4.
  simpl in Hr4, Hs4, He4. subst o4.
  destruct (Hlast w4 Hs4) as (Hr5 & Hs5 & He5).
  destruct (clearStorage env w4) as [o5 w5] eqn:H5.
  simpl in Hr5, Hs5, He5. subst o5.
  assert (Hclear : clear env w = (Returned tt, w5)).
  { unfold clear. unfold bind at 1. unfold log at 1. fold wa.
    rewrite (bind_Returned _ _ _ _ _ H1), (bind_Returned _ _ _ _ _ H2),
      (bind_Returned _ _ _ _ _ H3), (bind_Returned _ _ _ _ _ H4).
    exact H5. }
  rewrite Hclear. simpl.
  split; [done|]. split; [exact Hs5|].
  intros Hhonest Hpage.
  pose proof (clearAll_shrinks env customizationsCollectionId w1) as S2.
  pose proof (clearAll_shrinks env menuCollectionId w2) as S3.
  pose proof (clearAll_shrinks env menuCustomizationsCollectionId w3) as S4.
  pose proof (clearStorage_shrinks env w4) as S5.
  rewrite H2 in S2. rewrite H3 in S3. rewrite H4 in S4. rewrite H5 in S5.
  simpl in S2, S3, S4, S5.
  assert (S25 : shrinks w1 w5) by (etrans; [exact S2|]; etrans; [exact S3|];
                                   etrans; [exact S4 | exact S5]).
  assert (S35 : shrinks w2 w5) by (etrans; [exact S3|];
                                   etrans; [exact S4 | exact S5]).
  assert (S45 : shrinks w3 w5) by (etrans; [exact S4 | exact S5]).
  split; [|by apply He5].
  intros c. apply elem_of_nil_inv. intros d Hd.
  destruct c.
  + apply (proj1 S25) in Hd. rewrite He1 in Hd by done.
    by apply elem_of_nil in Hd.
  + apply (proj1 S35) in Hd. rewrite He2 in Hd by done.
    by apply elem_of_nil in Hd.
  + apply (proj1 S45) in Hd. rewrite He3 in Hd by done.
    by apply elem_of_nil in Hd.
  + apply (proj1 S5) in Hd. rewrite He4 in Hd by done.
    by apply elem_of_nil in Hd.
Qed.
End ClearReturns.

(** ** The creation phases *)

Section Populate.
Variable env : Env.
Hypothesis Hlive : responsive env.
Hypothesis Hmenu : servedIn env menuCollectionId.

(** One turn of the loop over [data.menu], the store accepting the
    menu document. *)
Lemma seedMenuItem_step categoryMap customizationMap item w :
  ∃ img id t w',
    seedMenuItem env categoryMap customizationMap tt item w
    = (Returned tt, w') ∧
    documents w' menuCollectionId
    = documents w menuCollectionId
        ++ [mkDoc id (MenuData (menuFields categoryMap item img))] ∧
    documents w' menuCustomizationsCollectionId
    = documents w menuCustomizationsCollectionId
        ++ attemptDocs env menuCustomizationsCollectionId
             (linkPayload customizationMap id) t (S id)
             (MenuItem.customizations item) ∧
    documents w' categoriesCollectionId = documents w categoriesCollectionId ∧
    documents w' customizationsCollectionId
    = documents w customizationsCollectionId ∧
    nextId w ≤ id.
Proof.
  destruct (uploadImageToStorage_returns env (MenuItem.image_url item) w Hlive)
    as [img Himg].
  destruct (uploadImageToStorage env (MenuItem.image_url item) w)
    as [o w1] eqn:Hup. simpl in Himg. subst o.
  assert (Hdocs : ∀ c, documents w1 c = documents w c).
  { intros c.
    pose proof (uploadImageToStorage_documents env (MenuItem.image_url item)
                  c w) as H.
    by rewrite Hup in H. }
  assert (Hid : nextId w ≤ nextId w1).
  { assert (Hk : keeps (λ w w', nextId w ≤ nextId w')
                   (uploadImageToStorage env (MenuItem.image_url item))).
    { assert (PreOrder (λ w w' : World, nextId w ≤ nextId w')).
      { split; [by intros ? | intros ???; lia]. }
      solve_keeps; intros; cbv [keeps ID_unique]; intros; simpl; lia. }
    specialize (Hk w). by rewrite Hup in Hk. }
  exists img, (nextId w1), (S (tick w1)).
  rewrite (seedMenuItem_eval _ _ _ _ _ _ _ Hup).
  unfold menuRequest. rewrite Hmenu.
  destruct (links_run env customizationMap item
              (mkDoc (nextId w1) (MenuData (menuFields categoryMap item img)))
              (created menuCollectionId
                 (MenuData (menuFields categoryMap item img)) w1) Hlive)
    as (w' & Hrun & Hd & Ho & _).
  exists w'. split; [done|]. simpl in Hd.
  rewrite (Ho menuCollectionId), (Ho categoriesCollectionId),
    (Ho customizationsCollectionId) by done.
  simpl. rewrite Hd, !Hdocs. done.
Qed.

Lemma menu_loop categoryMap customizationMap items : ∀ w,
  ∃ L J w',
    forOf items (seedMenuItem env categoryMap customizationMap) tt w
    = (Returned tt, w') ∧
    documents w' menuCollectionId = documents w menuCollectionId ++ L ∧
    Forall2 (λ item d, ∃ img,
               doc_data d = MenuData (menuFields categoryMap item img))
      items L ∧
    documents w' menuCustomizationsCollectionId
    = documents w menuCustomizationsCollectionId ++ J ∧
    (servedIn env menuCustomizationsCollectionId →
     length J = linkCount items) ∧
    documents w' categoriesCollectionId = documents w categoriesCollectionId ∧
    documents w' customizationsCollectionId
    = documents w customizationsCollectionId.
Proof.
  induction items as [|item items IH]; intros w.
  - exists [], [], w. simpl. rewrite !app_nil_r. by repeat split.
  - destruct (seedMenuItem_step categoryMap customizationMap item w)
      as (img & id & t & w1 & Hrun & Hm & Hj & Hc & Hu & _).
    destruct (IH w1) as (L & J & w' & Hrest & Hm' & HL & Hj' & HJ & Hc' & Hu').
    exists (mkDoc id (MenuData (menuFields categoryMap item img)) :: L),
      (attemptDocs env menuCustomizationsCollectionId
         (linkPayload customizationMap id) t (S id)
         (MenuItem.customizations item) ++ J), w'.
    cbn [forOf]. rewrite (bind_Returned _ _ _ _ _ Hrun).
    split; [done|].
    split; [by rewrite Hm', Hm, <- app_assoc|].
    split; [constructor; [by exists img | done]|].
    split; [by rewrite Hj', Hj, <- app_assoc|].
    split; [|by rewrite Hc', Hu', Hc, Hu].
    intros Hjoins. rewrite length_app, (HJ Hjoins).
    rewrite attemptDocs_served by (intros; apply Hjoins).
    rewrite length_imap.
    change (linkCount (item :: items))
      with (length (MenuItem.customizations item) + linkCount items).
    lia.
Qed.

(** The three creation phases together. *)
Lemma populate_spec data w :
  let categoryMap :=
    attemptState env categoriesCollectionId CategoryData
      (λ (m : gmap string ID) cat id, assign m (Category.name cat) id)
      (tick w) (nextId w) (categories data) ∅ in
  ∃ L J w',
    populate env data w = (Returned tt, w') ∧
    isSeeding w' = isSeeding w ∧
    documents w' categoriesCollectionId
    = documents w categoriesCollectionId
        ++ attemptDocs env categoriesCollectionId CategoryData
             (tick w) (nextId w) (categories data) ∧
    documents w' customizationsCollectionId
    = documents w customizationsCollectionId
        ++ attemptDocs env customizationsCollectionId CustomizationData
             (tick w + length (categories data))
             (nextId w + length (categories data)) (customizations data) ∧
    documents w' menuCollectionId = documents w menuCollectionId ++ L ∧
    Forall2 (λ item d, ∃ img,
               doc_data d = MenuData (menuFields categoryMap item img))
      (menu data) L ∧
    documents w' menuCustomizationsCollectionId
    = documents w menuCustomizationsCollectionId ++ J ∧
    (servedIn env menuCustomizationsCollectionId →
     length J = linkCount (menu data)).
Proof.
  intros categoryMap.
  pose proof (populate_flag env data w) as Hflag. unfold same in Hflag.
  unfold populate in *.
  destruct (attempt_loop env categoriesCollectionId CategoryData
              (λ (m : gmap string ID) cat id, assign m (Category.name cat) id)
              (λ cat, FailedCategory (Category.name cat))
              (categories data) ∅ w)
    as (w1 & Hcat & Hd1 & Ho1 & _ & _ & Hn1 & Ht1 & _);
    [by intros; apply Hlive|].
  fold categoryMap in Hcat.
  destruct (attempt_loop env customizationsCollectionId CustomizationData
              (λ (m : gmap string ID) cus id,
                 assign m (Customization.name cus) id)
              (λ cus, FailedCustomization (Customization.name cus))
              (customizations data) ∅ w1)
    as (w2 & Hcus & Hd2 & Ho2 & _);
    [by intros; apply Hlive|].
  set (customizationMap := attemptState _ _ _ _ _ _ _ _) in Hcus.
  destruct (menu_loop categoryMap customizationMap (menu data) w2)
    as (L & J & w3 & Hloop & Hm & HL & Hj & HJ & Hc3 & Hu3).
  exists L, J, (set_console (console w3 ++ [SeedingComplete]) w3).
  rewrite seedCategory_attempt, seedCustomization_attempt in *.
  rewrite (bind_Returned _ _ _ _ _ Hcat) in *.
  rewrite (bind_Returned _ _ _ _ _ Hcus) in *.
  rewrite (bind_Returned _ _ _ _ _ Hloop) in *.
  split; [done|]. simpl.
  split; [done|].
  split; [by rewrite Hc3, (Ho2 categoriesCollectionId), Hd1|].
  split; [by rewrite Hu3, Hd2, (Ho1 customizationsCollectionId), Ht1, Hn1|].
  split; [by rewrite Hm, (Ho2 menuCollectionId), (Ho1 menuCollectionId)|].
  split; [done|].
  split; [|done].
  by rewrite Hj, (Ho2 menuCustomizationsCollectionId),
    (Ho1 menuCustomizationsCollectionId).
Qed.
End Populate.

(** ** Runs in which the store does all it is asked *)

Lemma seed_counts env data w :
  obliging env → isSeeding w = false →
  (seed env data w).1 = Returned tt ∧
  isSeeding (seed env data w).2 = false ∧
  ∀ c, length (documents (seed env data w).2 c) = expected data c.
Proof.
  intros Hobl Hw.
  assert (Hlive : responsive env).
  { intros t q. by rewrite (proj1 (Hobl t q)). }
  assert (Hserved : ∀ c, servedIn env c) by (intros c t id p; apply Hobl).
  assert (Hhonest : honest404 env).
  { intros t q e. by rewrite (proj1 (Hobl t q)). }
  rewrite seed_idle by done.
  destruct (clear_steps env) with (w := set_isSeeding true w)
    as (Hret & _ & Hempty).
  { split; intros; apply Hobl. }
  { intros; apply Hobl. }
  { intros; apply Hobl. }
  destruct (Hempty Hhonest) as [Hdocs _]; [intros; apply Hobl|].
  destruct (clear env (set_isSeeding true w)) as [o w1] eqn:Hclear.
  simpl in Hret, Hdocs. subst o.
  destruct (populate_spec env Hlive (Hserved _) data w1)
    as (L & J & w2 & Hpop & _ & Hc & Hu & Hm & HL & Hj & HJ).
  unfold tryFinally, tryCatch.
  rewrite (bind_Returned _ _ _ _ _ Hclear), Hpop. simpl.
  split; [done|]. split; [done|].
  intros c. destruct c; simpl.
  - rewrite Hc, Hdocs. simpl.
    rewrite attemptDocs_served by (intros; apply Hserved).
    by rewrite length_imap.
  - rewrite Hu, Hdocs. simpl.
    rewrite attemptDocs_served by (intros; apply Hserved).
    by rewrite length_imap.
  - rewrite Hm, Hdocs. simpl. symmetry. by eapply Forall2_length.
  - rewrite Hj, Hdocs. simpl. by apply HJ.
Qed.

(** C2, as stated, fails: that every remote operation succeeds is not
    enough.  The store serves every request, and answers a listing with
    one record at most.  Both runs return, with no error and no warning
    logged; the first leaves the two categories of the dataset; the
    second lists one of them, deletes it, and adds two: three
    categories. *)
Lemma seed_twice_paged :
  let once := seed pagingEnv sample emptyWorld in
  let twice := seed pagingEnv sample once.2 in
  (∀ t q, fate (oracle pagingEnv t q) = Settle ∧
          http_ok (oracle pagingEnv t q) = true) ∧
  once.1 = Returned tt ∧ twice.1 = Returned tt ∧
  console twice.2
  = [Clearing; SeedingComplete; Clearing; SeedingComplete] ∧
  length (documents once.2 categoriesCollectionId) = 2 ∧
  length (documents twice.2 categoriesCollectionId) = 3 ∧
  ¬ (∀ env env' data w,
       (∀ t q, fate (oracle env t q) = Settle) →
       (∀ t q, fate (oracle env' t q) = Settle) →
       isSeeding w = false → (∀ c, documents w c = []) → files w = [] →
       ∀ c, length (documents (seed env' data (seed env data w).2).2 c)
            = length (documents (seed env data w).2 c)).
Proof.
  split; [done|]. split; [reflexivity|]. split; [reflexivity|].
  split; [reflexivity|]. split; [reflexivity|]. split; [reflexivity|].
  intros Hall.
  specialize (Hall pagingEnv pagingEnv sample emptyWorld
                (λ _ _, eq_refl) (λ _ _, eq_refl) eq_refl (λ _, eq_refl)
                eq_refl categoriesCollectionId).
  vm_compute in Hall. discriminate Hall.
Qed.

(** C2 (amended): seeding twice.  When the store does all it is asked,
    every request served and every listing whole (the answer to a
    listing has all the records there are to list), seeding an empty
    store twice in succession leaves as many categories, customizations,
    menu items and join records as seeding it once: as many as the
    dataset has. *)
Theorem seed_twice_counts env env' data w :
  obliging env → obliging env' →
  isSeeding w = false →
  (∀ c, documents w c = []) → files w = [] →
  let once := seed env data w in
  let twice := seed env' data once.2 in
  once.1 = Returned tt ∧ twice.1 = Returned tt ∧
  ∀ c, length (documents twice.2 c) = length (documents once.2 c) ∧
       length (documents once.2 c) = expected data c.
Proof.
  intros Hobl Hobl' Hw _ _ once twice.
  destruct (seed_counts env data w Hobl Hw) as (Hret & Hflag & Hcount).
  destruct (seed_counts env' data once.2 Hobl' Hflag) as (Hret' & _ & Hcount').
  split; [done|]. split; [done|].
  intros c. subst once twice. by rewrite Hcount', Hcount.
Qed.

Lemma servingEnv_obliging : obliging servingEnv.
Proof. by intros t q. Qed.

(** The scenario, seeded twice: two categories, one customization, one
    menu item, one join record. *)
Lemma seed_twice_counts_witness :
  let once := seed servingEnv sample emptyWorld in
  let twice := seed servingEnv sample once.2 in
  (λ c, length (documents twice.2 c))
    <$> [categoriesCollectionId; customizationsCollectionId;
         menuCollectionId; menuCustomizationsCollectionId]
  = [2; 1; 1; 1].
Proof.
  intros once twice.
  destruct (seed_twice_counts servingEnv servingEnv sample emptyWorld
              servingEnv_obliging servingEnv_obliging eq_refl
              (λ _, eq_refl) eq_refl) as (_ & _ & Hcount).
  cbn [fmap list_fmap].
  rewrite !(proj1 (Hcount _)), !(proj2 (Hcount _)). reflexivity.
Defined.

(** ** One creation fails *)

Section OneFails.
Context {A : Type} (env : Env) (c : Collection) (pay : A → Payload)
  (key : A → string).

Local Abbreviation upd := (λ (m : gmap string ID) x id, assign m (key x) id).






End OneFails.










(** C1: the end-to-end scenario.  Seeding an empty store with the
    dataset of two categories "Pizza" and "Drinks", one customization
    "Extra Cheese" (1.5, "topping") and one menu item "Margherita" of
    category "Pizza" with the customization "Extra Cheese", the store
    serving every listing and every creation of a document, ends with
    those two categories, that customization, one menu document whose
    category is the identifier given to "Pizza" in the run, and one join
    record from the menu document to the customization.  Whether the
    image of the item can be fetched and stored makes no difference. *)
Theorem end_to_end_scenario env pizza drinks item w :
  responsive env →
  (∀ t c, fate (oracle env t (ListDocuments c)) = Settle) →
  (∀ t, fate (oracle env t ListFiles) = Settle) →
  (∀ c, servedIn env c) →
  isSeeding w = false → (∀ c, documents w c = []) → files w = [] →
  let r := seed env (scenario pizza drinks item) w in
  r.1 = Returned tt ∧
  ∃ pizzaId drinksId cheeseId menuId joinId img,
    documents r.2 categoriesCollectionId
    = [mkDoc pizzaId (CategoryData (Category.mk "Pizza" pizza));
       mkDoc drinksId (CategoryData (Category.mk "Drinks" drinks))] ∧
    documents r.2 customizationsCollectionId
    = [mkDoc cheeseId
         (CustomizationData (Customization.mk "Extra Cheese" (3 # 2) "topping"))] ∧
    documents r.2 menuCollectionId
    = [mkDoc menuId
         (MenuData
            (MenuDoc.mk "Margherita" (MenuItem.description item) img
               (MenuItem.price item) (MenuItem.rating item)
               (MenuItem.calories item) (MenuItem.protein item)
               (Id pizzaId)))] ∧
    documents r.2 menuCustomizationsCollectionId
    = [mkDoc joinId (JoinData (JoinDoc.mk menuId (Id cheeseId)))].
Proof.
  intros Hlive Hlists Hfiles Hserved Hw Hdocs Hnofiles r.
  assert (Hr : r = seed env (scenario pizza drinks item) w) by done.
  rewrite seed_idle in Hr by done.
  destruct (clear_steps env (conj Hlists Hfiles) (set_isSeeding true w))
    as (Hret & [Hshrink _] & _).
  { intros t c d Hd. simpl in Hd. rewrite Hdocs in Hd.
    by apply elem_of_nil in Hd. }
  { intros t f Hf. simpl in Hf. rewrite Hnofiles in Hf.
    by apply elem_of_nil in Hf. }
  destruct (clear env (set_isSeeding true w)) as [o w1] eqn:Hclear.
  simpl in Hret, Hshrink. subst o.
  assert (Hempty : ∀ c, documents w1 c = []).
  { intros c. apply elem_of_nil_inv. intros d Hd. apply Hshrink in Hd.
    rewrite Hdocs in Hd. by apply elem_of_nil in Hd. }
  (* categories *)
  destruct (attempt_loop env categoriesCollectionId CategoryData
              (λ (m : gmap string ID) cat id, assign m (Category.name cat) id)
              (λ cat, FailedCategory (Category.name cat))
              (categories (scenario pizza drinks item)) ∅ w1)
    as (w2 & Hcat & Hd2 & Ho2 & _); [by intros; apply Hlive|].
  rewrite <- seedCategory_attempt in Hcat.
  rewrite attemptDocs_served in Hd2 by (intros; apply Hserved).
  cbn [attemptState scenario categories] in Hcat. unfold served in Hcat.
  rewrite !Hserved in Hcat. cbn [Category.name] in Hcat.
  unfold assign in Hcat. rewrite !decide_False in Hcat by done.
  cbn [scenario categories imap] in Hd2. rewrite Hempty in Hd2.
  (* customizations *)
  destruct (attempt_loop env customizationsCollectionId CustomizationData
              (λ (m : gmap string ID) cus id,
                 assign m (Customization.name cus) id)
              (λ cus, FailedCustomization (Customization.name cus))
              (customizations (scenario pizza drinks item)) ∅ w2)
    as (w3 & Hcus & Hd3 & Ho3 & _); [by intros; apply Hlive|].
  rewrite <- seedCustomization_attempt in Hcus.
  rewrite attemptDocs_served in Hd3 by (intros; apply Hserved).
  cbn [attemptState scenario customizations] in Hcus. unfold served in Hcus.
  rewrite !Hserved in Hcus. cbn [Customization.name] in Hcus.
  unfold assign in Hcus. rewrite !decide_False in Hcus by done.
  cbn [scenario customizations imap] in Hd3.
  rewrite (Ho2 customizationsCollectionId), Hempty in Hd3 by done.
  (* the menu item *)
  set (categoryMap := <["Drinks" := S (nextId w1)]>
                        (<["Pizza" := nextId w1]> (∅ : gmap string ID))) in *.
  set (customizationMap :=
         <["Extra Cheese" := nextId w2]> (∅ : gmap string ID)) in *.
  set (margherita' :=
         MenuItem.mk "Margherita" (MenuItem.description item)
           (MenuItem.image_url item) (MenuItem.price item)
           (MenuItem.rating item) (MenuItem.calories item)
           (MenuItem.protein item) "Pizza" ["Extra Cheese"]).
  destruct (seedMenuItem_step env Hlive (Hserved _) categoryMap
              customizationMap margherita' w3)
    as (img & menuId & t & w4 & Hitem & Hm4 & Hj4 & Hc4 & Hu4 & _).
  rewrite attemptDocs_served in Hj4 by (intros; apply Hserved).
  cbn [margherita' MenuItem.customizations imap] in Hj4.
  rewrite (Ho3 menuCollectionId), (Ho2 menuCollectionId), Hempty in Hm4
    by done.
  rewrite (Ho3 menuCustomizationsCollectionId),
    (Ho2 menuCustomizationsCollectionId), Hempty in Hj4 by done.
  rewrite (Ho3 categoriesCollectionId), Hd2 in Hc4 by done.
  rewrite Hd3 in Hu4.
  (* the run *)
  assert (Hpop : populate env (scenario pizza drinks item) w1
                 = (Returned tt, set_console (console w4 ++ [SeedingComplete]) w4)).
  { unfold populate.
    rewrite (bind_Returned _ _ _ _ _ Hcat), (bind_Returned _ _ _ _ _ Hcus).
    cbn [scenario menu forOf]. fold margherita'.
    rewrite (bind_Returned _ _ _ _ _
               (bind_Returned _ _ _ _ _ Hitem : (_ <- _; ret _) w3 = _)).
    done. }
  unfold tryFinally, tryCatch in Hr.
  rewrite (bind_Returned _ _ _ _ _ Hclear), Hpop in Hr.
  rewrite Hr. unfold bind, assign_isSeeding, ret. simpl. split; [done|].
  exists (nextId w1), (nextId w1 + 1), (nextId w2), menuId, (S menuId), img.
  rewrite Hc4, Hu4, Hm4, Hj4. simpl.
  rewrite !Nat.add_0_r.
  split; [done|]. split; [done|]. split.
  - unfold menuFields, margherita', read, categoryMap. simpl.
    by rewrite lookup_insert_ne, lookup_insert_eq.
  - unfold linkPayload, read, customizationMap. by rewrite lookup_insert_eq.
Qed.

(** The scenario with a store that serves everything. *)
Lemma end_to_end_scenario_witness :
  let r := seed servingEnv sample emptyWorld in
  r.1 = Returned tt ∧
  ∃ pizzaId drinksId cheeseId menuId joinId img,
    documents r.2 categoriesCollectionId
    = [mkDoc pizzaId (CategoryData (Category.mk "Pizza" "Wood-fired pizzas"));
       mkDoc drinksId (CategoryData (Category.mk "Drinks" "Cold drinks"))] ∧
    documents r.2 customizationsCollectionId
    = [mkDoc cheeseId
         (CustomizationData (Customization.mk "Extra Cheese" (3 # 2) "topping"))] ∧
    documents r.2 menuCollectionId
    = [mkDoc menuId
         (MenuData
            (MenuDoc.mk "Margherita" (MenuItem.description margherita) img
               (MenuItem.price margherita) (MenuItem.rating margherita)
               (MenuItem.calories margherita) (MenuItem.protein margherita)
               (Id pizzaId)))] ∧
    documents r.2 menuCustomizationsCollectionId
    = [mkDoc joinId (JoinData (JoinDoc.mk menuId (Id cheeseId)))].
Proof.
  exact (end_to_end_scenario servingEnv "Wood-fired pizzas" "Cold drinks"
           margherita emptyWorld servingEnv_responsive
           (λ _ _, eq_refl) (λ _, eq_refl) (λ _ _ _ _, eq_refl)
           eq_refl (λ _, eq_refl) eq_refl).
Defined.

(** * Further properties of the script *)

(** ** The name of an uploaded file (line 77) *)

Lemma append_empty_r s : s +:+ "" = s.
Proof.
  induction s as [|c s IH]; [done|].
  change (String c (s +:+ "") = String c s). by rewrite IH.
Qed.

Lemma append_snoc acc c s : (acc +:+ String c "") +:+ s = acc +:+ String c s.
Proof.
  induction acc as [|a acc IH]; [done|].
  change (String a ((acc +:+ String c "") +:+ s)
          = String a (acc +:+ String c s)).
  by rewrite IH.
Qed.

Lemma split_pop_segment s : ∀ acc,
  noSlash s = true → split_pop acc s = acc +:+ s.
Proof.
  induction s as [|c s IH]; intros acc Hs; simpl in *.
  - by rewrite append_empty_r.
  - apply andb_true_iff in Hs as [Hc Hs].
    apply negb_true_iff in Hc. rewrite Hc.
    rewrite IH by done. apply append_snoc.
Qed.

Lemma split_pop_after_slash p : ∀ acc seg,
  split_pop acc (p +:+ String "/" seg) = split_pop "" seg.
Proof.
  induction p as [|c p IH]; intros acc seg; [done|].
  change (String c p +:+ String "/" seg) with (String c (p +:+ String "/" seg)).
  simpl. destruct (Ascii.eqb c "/"); apply IH.
Qed.

(** X1: the name under which an image is uploaded.  The name is never
    empty.  It is what follows the last slash of the URL when that is not
    empty, the whole URL when the URL has no slash, and
    [file-<now>.jpg], with the time of the call, when the URL is empty
    or ends with a slash. *)
Theorem upload_file_name env imageUrl w :
  ∃ name,
    fileName env imageUrl w = (Returned name, w) ∧
    name ≠ "" ∧
    (∀ p seg, imageUrl = p +:+ String "/" seg → noSlash seg = true →
              seg ≠ "" → name = seg) ∧
    (noSlash imageUrl = true → imageUrl ≠ "" → name = imageUrl) ∧
    (∀ p, imageUrl = "" ∨ imageUrl = p +:+ "/" →
          name = "file-" +:+ pretty (clock env (tick w)) +:+ ".jpg").
Proof.
  exists (fileNameAt env imageUrl (tick w)).
  split; [apply fileName_eval|]. unfold fileNameAt.
  split; [by case_decide|].
  split; [|split].
  - intros p seg -> Hseg Hne. rewrite split_pop_after_slash.
    rewrite split_pop_segment by done.
    change ("" +:+ seg) with seg. by rewrite decide_False.
  - intros Hurl Hne. rewrite split_pop_segment by done.
    change ("" +:+ imageUrl) with imageUrl. by rewrite decide_False.
  - intros p [->| ->]; [done|]. rewrite split_pop_after_slash. done.
Qed.

(** ** The order of the clearing phase (lines 100-105) *)

Lemma filter_deletes {A} (mk : A → Request) (l : list A) :
  (∀ x, isListing (mk x) = false) →
  filter (λ q, isListing q) (mk <$> l) = [].
Proof.
  intros Hmk. induction l as [|x l IH]; [done|].
  rewrite fmap_cons, filter_cons_False; [done|]. rewrite Hmk. by intros [].
Qed.

Section ClearOrder.
Variable env : Env.

Lemma clearingStep_bind ls1 ls2 (m1 m2 : Async unit) :
  clearingStep ls1 m1 → clearingStep ls2 m2 →
  clearingStep (ls1 ++ ls2) (m1;; m2).
Proof.
  intros H1 H2 w.
  destruct (H1 w) as (rs1 & Hr1 & Hc1 & Hp1 & Hd1 & Ho1 & Hf1).
  unfold bind. destruct (m1 w) as [[[]|e|] w1]; simpl in *.
  - destruct (H2 w1) as (rs2 & Hr2 & Hc2 & Hp2 & Hd2 & Ho2 & Hf2).
    exists (rs1 ++ rs2).
    split; [by rewrite Hr2, Hr1, <- app_assoc|].
    split; [by apply Forall_app|].
    rewrite filter_app, (Hd1 eq_refl).
    split; [by apply prefix_app|].
    split; [intros Hret; by rewrite (Hd2 Hret)|].
    split.
    + intros c Hc. rewrite Ho2, Ho1; [done | |];
        intros Hin; apply Hc, elem_of_app; auto.
    + intros Hf. rewrite Hf2, Hf1; [done | |];
        intros Hin; apply Hf, elem_of_app; auto.
  - exists rs1. split; [done|]. split; [done|].
    split; [by apply prefix_app_r|]. done.
  - exists rs1. split; [done|]. split; [done|].
    split; [by apply prefix_app_r|]. done.
Qed.

Lemma clearAll_step c : clearingStep [ListDocuments c] (clearAll env c).
Proof.
  intros w.
  assert (Hothers : ∀ c', c' ≠ c →
            documents (clearAll env c w).2 c' = documents w c').
  { intros c' Hc'. apply (clearAll_documents env c c' Hc' w). }
  assert (Hfiles : files (clearAll env c w).2 = files w)
    by apply (clearAll_files env c w).
  revert Hothers Hfiles. unfold clearAll, bind. rewrite listDocuments_eval.
  simpl. destruct (fate _) as [|e|]; simpl; intros Hothers Hfiles.
  - eexists (ListDocuments c :: _).
    rewrite promiseAll_requests. simpl. rewrite <- app_assoc.
    split; [reflexivity|].
    split.
    { constructor; [done|]. apply Forall_fmap, Forall_true. done. }
    rewrite filter_cons_True by done. rewrite filter_deletes by done.
    split; [done|]. split; [done|].
    split; [|done].
    intros c' Hc'. apply Hothers. intros ->. apply Hc'. by left.
  - exists [ListDocuments c].
    split; [done|]. split; [by repeat constructor|].
    split; [done|]. split; [done|].
    split; [|done].
    intros c' Hc'. apply Hothers. intros ->. apply Hc'. by left.
  - exists [ListDocuments c].
    split; [done|]. split; [by repeat constructor|].
    split; [done|]. split; [done|].
    split; [|done].
    intros c' Hc'. apply Hothers. intros ->. apply Hc'. by left.
Qed.

Lemma clearStorage_step : clearingStep [ListFiles] (clearStorage env).
Proof.
  intros w.
  assert (Hdocs : ∀ c, documents (clearStorage env w).2 c = documents w c).
  { intros c. apply (clearStorage_documents env c w). }
  revert Hdocs. unfold clearStorage, bind. rewrite listFiles_eval.
  simpl. destruct (fate _) as [|e|]; simpl; intros Hdocs.
  - eexists (ListFiles :: _).
    rewrite promiseAll_requests. simpl. rewrite <- app_assoc.
    split; [reflexivity|].
    split.
    { constructor; [done|]. apply Forall_fmap, Forall_true. done. }
    rewrite filter_cons_True by done. rewrite filter_deletes by done.
    split; [done|]. split; [done|].
    split; [done|]. intros Hf. destruct Hf. by left.
  - exists [ListFiles].
    split; [done|]. split; [by repeat constructor|].
    split; [done|]. split; [done|].
    split; [done|]. intros Hf. destruct Hf. by left.
  - exists [ListFiles].
    split; [done|]. split; [by repeat constructor|].
    split; [done|]. split; [done|].
    split; [done|]. intros Hf. destruct Hf. by left.
Qed.

Lemma log_step entry : clearingStep [] (log entry).
Proof.
  intros w. exists []. simpl. rewrite app_nil_r. by repeat split.
Qed.

Lemma clear_step : clearingStep listings (clear env).
Proof.
  unfold clear.
  apply (clearingStep_bind [] _ _ _ (log_step Clearing)).
  apply (clearingStep_bind [_] _ _ _ (clearAll_step _)).
  apply (clearingStep_bind [_] _ _ _ (clearAll_step _)).
  apply (clearingStep_bind [_] _ _ _ (clearAll_step _)).
  apply (clearingStep_bind [_] _ _ _ (clearAll_step _)).
  apply clearStorage_step.
Qed.
End ClearOrder.


#[global] Instance extends_preorder : PreOrder extends.
Proof.
  split.
  - intros w. split; [intros c|]; reflexivity.
  - intros w1 w2 w3 [Hd12 Hf12] [Hd23 Hf23]. split.
    + intros c. etrans; [apply Hd12 | apply Hd23].
    + etrans; [exact Hf12 | exact Hf23].
Qed.

#[global] Instance thins_preorder : PreOrder thins.
Proof.
  split.
  - intros w. split; [intros c|]; reflexivity.
  - intros w1 w2 w3 [Hd12 Hf12] [Hd23 Hf23]. split.
    + intros c. etrans; [apply Hd23 | apply Hd12].
    + etrans; [exact Hf23 | exact Hf12].
Qed.

#[global] Instance sendsOnly_preorder P : PreOrder (sendsOnly P).
Proof.
  split.
  - intros w. exists []. by rewrite app_nil_r.
  - intros w1 w2 w3 (rs1 & H1 & HP1) (rs2 & H2 & HP2). exists (rs1 ++ rs2).
    split; [by rewrite H2, H1, <- app_assoc | by apply Forall_app].
Qed.

#[global] Instance spares_preorder c ids : PreOrder (spares c ids).
Proof.
  split; [by intros w d | intros w1 w2 w3 H12 H23 d Hd Hid; auto].
Qed.

#[global] Instance sparesFiles_preorder ids : PreOrder (sparesFiles ids).
Proof.
  split; [by intros w f | intros w1 w2 w3 H12 H23 f Hf Hid; auto].
Qed.

(** ** A run whose clearing fails (lines 99-105 and 182-186) *)

Section ClearFails.
Variable env : Env.

Lemma clearAll_console c : keeps (same console) (clearAll env c).
Proof.
  unfold clearAll, promiseAll. solve_keeps.
  apply keeps_awaitAll; solve_keeps.
Qed.

Lemma clearStorage_console : keeps (same console) (clearStorage env).
Proof.
  unfold clearStorage, promiseAll. solve_keeps.
  apply keeps_awaitAll; solve_keeps.
Qed.

Lemma clear_console w :
  console (clear env w).2 = console w ++ [Clearing].
Proof.
  unfold clear. unfold bind at 1, log at 1.
  set (wa := set_console _ w).
  assert (Hk : keeps (same console)
                 (clearAll env categoriesCollectionId;;
                  clearAll env customizationsCollectionId;;
                  clearAll env menuCollectionId;;
                  clearAll env menuCustomizationsCollectionId;;
                  clearStorage env)).
  { repeat keeps_step;
      first [apply clearAll_console | apply clearStorage_console]. }
  apply (Hk wa).
Qed.

Lemma clear_shrinks : keeps shrinks (clear env).
Proof.
  unfold clear. repeat keeps_step;
    first [apply clearAll_shrinks | apply clearStorage_shrinks | by intros w].
Qed.
End ClearFails.

(** X3: a run whose clearing fails creates nothing.  When the clearing
    phase throws, [seed] returns having sent listings and deletions
    only: no image was fetched, no file and no document created; the
    store holds nothing that it did not hold before; and the console has
    the two lines of the start of the clearing and of the error. *)
Theorem failed_clear_creates_nothing env data w e :
  isSeeding w = false →
  (clear env (set_isSeeding true w)).1 = Thrown e →
  let r := seed env data w in
  r.1 = Returned tt ∧
  (∃ rs, requests r.2 = requests w ++ rs ∧ Forall (λ q, isClearing q) rs) ∧
  shrinks w r.2 ∧
  console r.2 = console w ++ [Clearing; SeedError e].
Proof.
  intros Hw Hthrown r.
  assert (Hr : r = seed env data w) by done.
  rewrite seed_idle in Hr by done.
  destruct (clear_step env (set_isSeeding true w)) as (rs & Hreq & Hrs & _).
  pose proof (clear_shrinks env (set_isSeeding true w)) as Hshrinks.
  pose proof (clear_console env (set_isSeeding true w)) as Hconsole.
  destruct (clear env (set_isSeeding true w)) as [o w1] eqn:Hclear.
  simpl in *. subst o.
  unfold tryFinally, tryCatch in Hr.
  rewrite (bind_Thrown _ _ _ _ _ Hclear) in Hr. rewrite Hr. simpl.
  split; [done|]. split; [by exists rs|]. split; [done|].
  by rewrite Hconsole, <- app_assoc.
Qed.

(** Two categories in the store, and a store that fails deletions. *)
Lemma failed_clear_creates_nothing_witness :
  let r := seed deleteFailingEnv sample stockedWorld in
  r.1 = Returned tt ∧
  (∃ rs, requests r.2 = requests stockedWorld ++ rs ∧
         Forall (λ q, isClearing q) rs) ∧
  shrinks stockedWorld r.2 ∧
  console r.2 = console stockedWorld ++ [Clearing; SeedError serverError].
Proof.
  exact (failed_clear_creates_nothing deleteFailingEnv sample stockedWorld
           serverError eq_refl eq_refl).
Defined.

(** ** The creation phases add, and only add (lines 108-181) *)

Ltac extends_leaf :=
  solve
    [ intros;
      cbv [keeps extends issue settle log ID_unique Date_now ret throw];
      intros; simpl; repeat (case_match; simpl); split; intros;
      repeat (case_decide; simpl); simplify_eq;
      first [done | by apply prefix_app_r] ].

Ltac sends_leaf :=
  solve
    [ intros;
      cbv [keeps sendsOnly issue settle log ID_unique Date_now ret throw];
      intros; simpl; repeat (case_match; simpl);
      first [ by exists []; rewrite app_nil_r
            | by eexists [_]; split; [reflexivity | repeat constructor] ] ].

Section OnlyAdds.
Variable env : Env.

Lemma populate_extends data : keeps extends (populate env data).
Proof. solve_keeps; extends_leaf. Qed.

Lemma populate_sends data :
  keeps (sendsOnly (λ q, isClearing q = false)) (populate env data).
Proof. solve_keeps; sends_leaf. Qed.
End OnlyAdds.

(** X4: the creation phases add, and only add.  Whatever the store
    does, the three creation loops leave every record that was in a
    collection or in the bucket where it was, before the records they
    add, and send no listing and no deletion. *)
Theorem creation_only_adds env data w :
  let w' := (populate env data w).2 in
  (∀ c, documents w c `prefix_of` documents w' c) ∧
  files w `prefix_of` files w' ∧
  ∃ rs, requests w' = requests w ++ rs ∧
        Forall (λ q, isClearing q = false) rs.
Proof.
  intros w'. destruct (populate_extends env data w) as [Hd Hf].
  split; [done|]. split; [done|]. apply populate_sends.
Qed.

(** ** What a bulk clear leaves in place (lines 48-51 and 61-64) *)

Section ClearFrame.
Variable env : Env.

Lemma resumeSafeDelete_thins r : keeps thins (resumeSafeDelete env r).
Proof.
  intros w. unfold resumeSafeDelete, tryCatch, complete, bind, settle, remove,
    unless404.
  destruct (fate _) as [|e|]; simpl.
  - destruct r as [|?|c id| | |id| |]; simpl; try done.
    + case_decide; simpl; [|done]. split; simpl; [|done].
      intros c'. case_decide; [subst|done]. apply sublist_filter.
    + case_decide; simpl; [|done]. split; simpl; [done|].
      apply sublist_filter.
  - by case_decide.
  - done.
Qed.

Lemma awaitAll_thins n flying stalled :
  keeps thins (awaitAll env (resumeSafeDelete env) n flying stalled).
Proof.
  apply keeps_awaitAll; [apply _ | intros r _; apply resumeSafeDelete_thins|].
  intros l w. split; [intros c|]; reflexivity.
Qed.

Lemma promiseAll_thins rs :
  keeps thins (promiseAll env (resumeSafeDelete env) rs).
Proof.
  intros w. rewrite promiseAll_eval.
  pose proof (awaitAll_thins (length rs) rs []
                (set_requests (requests w ++ rs) w)) as [Hd Hf].
  by split.
Qed.

Lemma clearAll_thins c : keeps thins (clearAll env c).
Proof.
  unfold clearAll. apply keeps_bind; [apply _ | |].
  - intros w. rewrite listDocuments_eval. simpl. by destruct (fate _).
  - intros docs. apply promiseAll_thins.
Qed.

Lemma clearStorage_thins : keeps thins (clearStorage env).
Proof.
  unfold clearStorage. apply keeps_bind; [apply _ | |].
  - intros w. rewrite listFiles_eval. simpl. by destruct (fate _).
  - intros fs. apply promiseAll_thins.
Qed.




End ClearFrame.

(** X5: what a bulk clear leaves in place.  Whatever the store does,
    [clearAll] of a collection changes no other collection and not the
    bucket, and what it leaves of the collection are records that were
    there, in the order they were in; [clearStorage] changes no
    collection, and what it leaves of the bucket are files that were
    there, in their order. *)
Theorem bulk_clear_frame env w :
  (∀ c,
     let w' := (clearAll env c w).2 in
     (∀ c', c' ≠ c → documents w' c' = documents w c') ∧
     files w' = files w ∧
     documents w' c `sublist_of` documents w c) ∧
  (let w' := (clearStorage env w).2 in
   (∀ c, documents w' c = documents w c) ∧
   files w' `sublist_of` files w).
Proof.
  split.
  - intros c w'. split; [|split].
    + intros c' Hc'. apply (clearAll_documents env c c' Hc' w).
    + apply (clearAll_files env c w).
    + apply (clearAll_thins env c w).
  - intros w'. split.
    + intros c. apply (clearStorage_documents env c w).
    + apply (clearStorage_thins env w).
Qed.



(** ** Deleting what is not there (lines 40-46 and 53-59) *)

(** X7: a safe deletion is idempotent.  The safe deletion of a record
    that the store does not have, once its request is served, returns
    and leaves every collection and the bucket as they are; so a second
    safe deletion of the same record, after a first that was served,
    returns and changes nothing. *)
Theorem safe_delete_idempotent env w :
  (∀ c id,
     fate (oracle env (tick w) (DeleteDocument c id)) = Settle →
     (id ∉ doc_id <$> documents w c →
      (safeDeleteDocument env c id w).1 = Returned tt ∧
      documents (safeDeleteDocument env c id w).2 = documents w ∧
      files (safeDeleteDocument env c id w).2 = files w) ∧
     (fate (oracle env (S (tick w)) (DeleteDocument c id)) = Settle →
      let once := safeDeleteDocument env c id w in
      let twice := safeDeleteDocument env c id once.2 in
      once.1 = Returned tt ∧ twice.1 = Returned tt ∧
      documents twice.2 = documents once.2 ∧ files twice.2 = files once.2)) ∧
  (∀ id,
     fate (oracle env (tick w) (DeleteFile id)) = Settle →
     (id ∉ file_id <$> files w →
      (safeDeleteFile env id w).1 = Returned tt ∧
      documents (safeDeleteFile env id w).2 = documents w ∧
      files (safeDeleteFile env id w).2 = files w) ∧
     (fate (oracle env (S (tick w)) (DeleteFile id)) = Settle →
      let once := safeDeleteFile env id w in
      let twice := safeDeleteFile env id once.2 in
      once.1 = Returned tt ∧ twice.1 = Returned tt ∧
      documents twice.2 = documents once.2 ∧ files twice.2 = files once.2)).
Proof.
  assert (Hdoc : ∀ w c id,
    fate (oracle env (tick w) (DeleteDocument c id)) = Settle →
    id ∉ doc_id <$> documents w c →
    safeDeleteDocument env c id w
    = (Returned tt, sent (DeleteDocument c id) w)).
  { intros w0 c id Hfate Hid.
    unfold safeDeleteDocument, tryCatch, deleteDocument, complete, bind, issue,
      settle, remove. simpl. rewrite Hfate. simpl.
    by rewrite decide_False. }
  assert (Hfile : ∀ w id,
    fate (oracle env (tick w) (DeleteFile id)) = Settle →
    id ∉ file_id <$> files w →
    safeDeleteFile env id w = (Returned tt, sent (DeleteFile id) w)).
  { intros w0 id Hfate Hid.
    unfold safeDeleteFile, tryCatch, deleteFile, complete, bind, issue,
      settle, remove. simpl. rewrite Hfate. simpl.
    by rewrite decide_False. }
  split.
  - intros c id Hfate. split.
    + intros Hid. by rewrite Hdoc.
    + intros Hfate' once twice.
      assert (Honce : once.1 = Returned tt ∧ tick once.2 = S (tick w) ∧
                      id ∉ doc_id <$> documents once.2 c).
      { subst once.
        unfold safeDeleteDocument, tryCatch, deleteDocument, complete, bind,
          issue, settle, remove. simpl. rewrite Hfate. simpl.
        case_decide; simpl; [|done].
        split; [done|]. split; [done|]. rewrite decide_True by done.
        rewrite list_elem_of_fmap. intros (d & -> & Hd).
        by apply list_elem_of_filter in Hd as [Hne _]. }
      destruct Honce as (Hret & Htick & Hgone).
      subst twice. rewrite Hdoc; [done | by rewrite Htick | done].
  - intros id Hfate. split.
    + intros Hid. by rewrite Hfile.
    + intros Hfate' once twice.
      assert (Honce : once.1 = Returned tt ∧ tick once.2 = S (tick w) ∧
                      id ∉ file_id <$> files once.2).
      { subst once.
        unfold safeDeleteFile, tryCatch, deleteFile, complete, bind,
          issue, settle, remove. simpl. rewrite Hfate. simpl.
        case_decide; simpl; [|done].
        split; [done|]. split; [done|].
        rewrite list_elem_of_fmap. intros (f & -> & Hf).
        by apply list_elem_of_filter in Hf as [Hne _]. }
      destruct Honce as (Hret & Htick & Hgone).
      subst twice. rewrite Hfile; [done | by rewrite Htick | done].
Qed.

(** The first category of the store, deleted twice. *)
Lemma safe_delete_idempotent_witness :
  let once := safeDeleteDocument servingEnv categoriesCollectionId 0
                stockedWorld in
  let twice := safeDeleteDocument servingEnv categoriesCollectionId 0 once.2 in
  once.1 = Returned tt ∧ twice.1 = Returned tt ∧
  documents twice.2 = documents once.2 ∧ files twice.2 = files once.2.
Proof.
  destruct (proj1 (safe_delete_idempotent servingEnv stockedWorld)
              categoriesCollectionId 0 eq_refl) as [_ Htwice].
  exact (Htwice eq_refl).
Defined.

(** ** The maps from names to identifiers (lines 108-137) *)

Lemma read_Id (m : gmap string ID) k id : read m k = Id id ↔ m !! k = Some id.
Proof.
  unfold read. destruct (m !! k) as [id'|]; [|by case_decide].
  split; by intros [= ->].
Qed.

Section MapFacts.
Context {A : Type} (env : Env) (c : Collection) (pay : A → Payload)
  (key : A → string).

Local Abbreviation upd := (λ (m : gmap string ID) x id, assign m (key x) id).



(** An identifier in the map is the identifier of a document that the
    loop has added, for an element of that name. *)
Lemma attemptState_resolves k id l : ∀ t first (m : gmap string ID),
  attemptState env c pay upd t first l m !! k = Some id →
  m !! k = Some id ∨
  ∃ x, x ∈ l ∧ key x = k ∧ mkDoc id (pay x) ∈ attemptDocs env c pay t first l.
Proof.
  induction l as [|x l IH]; intros t first m Hk; [by left|].
  cbn [attemptState attemptDocs] in *.
  destruct (IH _ _ _ Hk) as [Hm|(y & Hy & Hkey & Hdoc)].
  - destruct (served _ _ _); [|by left].
    unfold assign in Hm. case_decide; [by left|].
    destruct (decide (key x = k)) as [Hx|Hx].
    + rewrite Hx, lookup_insert_eq in Hm. simplify_eq.
      right. exists x. split; [by left|]. split; [done|].
      apply elem_of_app. left. by left.
    + rewrite lookup_insert_ne in Hm by done. by left.
  - right. exists y. split; [by right|]. split; [done|].
    apply elem_of_app. by right.
Qed.
End MapFacts.



(** ** References between the records of a run (lines 108-179) *)

Section References.
Variable env : Env.
Hypothesis Hlive : responsive env.
Hypothesis Hmenu : servedIn env menuCollectionId.

Lemma menu_loop_links categoryMap customizationMap items : ∀ w,
  ∃ L J w',
    forOf items (seedMenuItem env categoryMap customizationMap) tt w
    = (Returned tt, w') ∧
    documents w' menuCollectionId = documents w menuCollectionId ++ L ∧
    Forall2 (λ item d, ∃ img,
               doc_data d = MenuData (menuFields categoryMap item img))
      items L ∧
    documents w' menuCustomizationsCollectionId
    = documents w menuCustomizationsCollectionId ++ J ∧
    Forall (λ d, ∃ menuId cusName,
              doc_data d = linkPayload customizationMap menuId cusName ∧
              menuId ∈ doc_id <$> L) J ∧
    documents w' categoriesCollectionId = documents w categoriesCollectionId ∧
    documents w' customizationsCollectionId
    = documents w customizationsCollectionId.
Proof.
  induction items as [|item items IH]; intros w.
  - exists [], [], w. simpl. rewrite !app_nil_r. by repeat split.
  - destruct (seedMenuItem_step env Hlive Hmenu categoryMap customizationMap
                item w)
      as (img & id & t & w1 & Hrun & Hm & Hj & Hc & Hu & _).
    destruct (IH w1) as (L & J & w' & Hrest & Hm' & HL & Hj' & HJ & Hc' & Hu').
    exists (mkDoc id (MenuData (menuFields categoryMap item img)) :: L),
      (attemptDocs env menuCustomizationsCollectionId
         (linkPayload customizationMap id) t (S id)
         (MenuItem.customizations item) ++ J), w'.
    cbn [forOf]. rewrite (bind_Returned _ _ _ _ _ Hrun).
    split; [done|].
    split; [by rewrite Hm', Hm, <- app_assoc|].
    split; [constructor; [by exists img | done]|].
    split; [by rewrite Hj', Hj, <- app_assoc|].
    split; [|by rewrite Hc', Hu', Hc, Hu].
    apply Forall_app. split.
    + apply Forall_forall. intros d Hd.
      destruct (attemptDocs_payload env _ _ _ _ _ _ Hd) as (name & _ & Hdata).
      exists id, name. split; [done|]. rewrite fmap_cons. by left.
    + eapply Forall_impl; [exact HJ|].
      intros d (menuId & name & Hdata & Hin). exists menuId, name.
      split; [done|]. rewrite fmap_cons. by right.
Qed.
End References.

(** X9: no dangling reference.  When the store answers every request
    and accepts the menu documents, the creation phases add one menu
    document per item of the dataset, in order, under the item's name;
    a category reference in such a document is the identifier of a
    category document of the store, created for a category of the
    dataset that has the name the item asks for; every join record
    added refers to one of the menu documents added; and a
    customization reference in a join record is the identifier of a
    customization document of the store. *)
Theorem references_resolve env data w :
  responsive env → servedIn env menuCollectionId →
  let w' := (populate env data w).2 in
  ∃ L J,
    documents w' menuCollectionId = documents w menuCollectionId ++ L ∧
    documents w' menuCustomizationsCollectionId
    = documents w menuCustomizationsCollectionId ++ J ∧
    Forall2 (λ item d, ∃ m,
               doc_data d = MenuData m ∧
               MenuDoc.name m = MenuItem.name item ∧
               ∀ id, MenuDoc.categories m = Id id →
                 ∃ cat, cat ∈ categories data ∧
                        Category.name cat = MenuItem.category_name item ∧
                        mkDoc id (CategoryData cat)
                        ∈ documents w' categoriesCollectionId)
      (menu data) L ∧
    Forall (λ d, ∃ j,
              doc_data d = JoinData j ∧
              JoinDoc.menu j ∈ doc_id <$> L ∧
              ∀ id, JoinDoc.customizations j = Id id →
                ∃ cus, cus ∈ customizations data ∧
                       mkDoc id (CustomizationData cus)
                       ∈ documents w' customizationsCollectionId) J.
Proof.
  intros Hlive Hmenu w'.
  assert (Hw' : w' = (populate env data w).2) by done.
  unfold populate in Hw'.
  destruct (attempt_loop env categoriesCollectionId CategoryData
              (λ (m : gmap string ID) cat id, assign m (Category.name cat) id)
              (λ cat, FailedCategory (Category.name cat))
              (categories data) ∅ w)
    as (w1 & Hcat & Hd1 & Ho1 & _); [by intros; apply Hlive|].
  destruct (attempt_loop env customizationsCollectionId CustomizationData
              (λ (m : gmap string ID) cus id,
                 assign m (Customization.name cus) id)
              (λ cus, FailedCustomization (Customization.name cus))
              (customizations data) ∅ w1)
    as (w2 & Hcus & Hd2 & Ho2 & _); [by intros; apply Hlive|].
  set (categoryMap :=
         attemptState _ categoriesCollectionId _ _ _ _ _ _) in Hcat.
  set (customizationMap :=
         attemptState _ customizationsCollectionId _ _ _ _ _ _) in Hcus.
  destruct (menu_loop_links env Hlive Hmenu categoryMap customizationMap
              (menu data) w2)
    as (L & J & w3 & Hloop & Hm & HL & Hj & HJ & Hc3 & Hu3).
  rewrite seedCategory_attempt, seedCustomization_attempt in Hw'.
  rewrite (bind_Returned _ _ _ _ _ Hcat) in Hw'.
  rewrite (bind_Returned _ _ _ _ _ Hcus) in Hw'.
  rewrite (bind_Returned _ _ _ _ _ Hloop) in Hw'.
  simpl in Hw'.
  assert (Hcats : documents w' categoriesCollectionId
                  = documents w categoriesCollectionId
                      ++ attemptDocs env categoriesCollectionId CategoryData
                           (tick w) (nextId w) (categories data)).
  { rewrite Hw'. simpl.
    by rewrite Hc3, (Ho2 categoriesCollectionId), Hd1. }
  assert (Hcuss : ∃ t first,
            documents w' customizationsCollectionId
            = documents w customizationsCollectionId
                ++ attemptDocs env customizationsCollectionId CustomizationData
                     t first (customizations data) ∧
            t = tick w1 ∧ first = nextId w1).
  { exists (tick w1), (nextId w1). rewrite Hw'. simpl.
    by rewrite Hu3, Hd2, (Ho1 customizationsCollectionId). }
  destruct Hcuss as (t & first & Hcuss & -> & ->).
  exists L, J.
  split; [rewrite Hw'; simpl;
          by rewrite Hm, (Ho2 menuCollectionId), (Ho1 menuCollectionId)|].
  split; [rewrite Hw'; simpl;
          by rewrite Hj, (Ho2 menuCustomizationsCollectionId),
            (Ho1 menuCustomizationsCollectionId)|].
  split.
  - eapply Forall2_impl; [exact HL|].
    intros item d (img & Hdata). eexists. split; [exact Hdata|].
    split; [done|]. simpl. intros id Hid%read_Id.
    destruct (attemptState_resolves env categoriesCollectionId CategoryData
                Category.name _ _ _ _ _ _ Hid)
      as [Hempty|(cat & Hin & Hname & Hdoc)].
    { by rewrite lookup_empty in Hempty. }
    exists cat. split; [done|]. split; [done|].
    rewrite Hcats. apply elem_of_app. by right.
  - eapply Forall_impl; [exact HJ|].
    intros d (menuId & name & Hdata & Hin). eexists. split; [exact Hdata|].
    split; [done|]. simpl. intros id Hid%read_Id.
    destruct (attemptState_resolves env customizationsCollectionId
                CustomizationData Customization.name _ _ _ _ _ _ Hid)
      as [Hempty|(cus & Hcin & _ & Hdoc)].
    { by rewrite lookup_empty in Hempty. }
    exists cus. split; [done|].
    rewrite Hcuss. apply elem_of_app. by right.
Qed.

(** The scenario, every request served: the menu document and the join
    record that are added refer to records of the store. *)
Lemma references_resolve_witness :
  let w' := (populate servingEnv sample emptyWorld).2 in
  ∃ L J,
    documents w' menuCollectionId = L ∧
    documents w' menuCustomizationsCollectionId = J ∧
    Forall2 (λ item d, ∃ m,
               doc_data d = MenuData m ∧
               MenuDoc.name m = MenuItem.name item ∧
               ∀ id, MenuDoc.categories m = Id id →
                 ∃ cat, cat ∈ categories sample ∧
                        Category.name cat = MenuItem.category_name item ∧
                        mkDoc id (CategoryData cat)
                        ∈ documents w' categoriesCollectionId)
      (menu sample) L ∧
    Forall (λ d, ∃ j,
              doc_data d = JoinData j ∧
              JoinDoc.menu j ∈ doc_id <$> L ∧
              ∀ id, JoinDoc.customizations j = Id id →
                ∃ cus, cus ∈ customizations sample ∧
                       mkDoc id (CustomizationData cus)
                       ∈ documents w' customizationsCollectionId) J.
Proof.
  exact (references_resolve servingEnv sample emptyWorld
           servingEnv_responsive (λ _ _ _, eq_refl)).
Defined.

(** ** A run after a run (lines 92-98 and 182-186) *)

#[global] Instance later_preorder : PreOrder later.
Proof. unfold later. apply _. Qed.

(** What is sent after [m], in a computation that starts with [m]. *)
Section After.
Context (R : relation World) `{!PreOrder R}.

Lemma bind_after {A B} (m : Async A) (k : A → Async B) w :
  (∀ a, keeps R (k a)) → R (m w).2 (bind m k w).2.
Proof.
  intros Hk. unfold bind.
  destruct (m w) as [[a|e|] w1]; simpl; [apply Hk | done | done].
Qed.

Lemma tryCatch_after {A} (m : Async A) h w :
  (∀ e, keeps R (h e)) → R (m w).2 (tryCatch m h w).2.
Proof.
  intros Hh. unfold tryCatch.
  destruct (m w) as [[a|e|] w1]; simpl; [done | apply Hh | done].
Qed.

Lemma tryFinally_after {A} (m : Async A) f w :
  keeps R f → R (m w).2 (tryFinally m f w).2.
Proof.
  intros Hf. unfold tryFinally, bind.
  destruct (m w) as [[a|e|] w1]; simpl; [| | done].
  - specialize (Hf w1). by destruct (f w1) as [[[]|e|] w2].
  - specialize (Hf w1). by destruct (f w1) as [[[]|e'|] w2].
Qed.
End After.

Section Later.
Variable env : Env.

Lemma clearingStep_later ls m : clearingStep ls m → keeps later m.
Proof.
  intros Hm w. destruct (Hm w) as (rs & Hreq & _).
  exists rs. split; [done | by apply Forall_true].
Qed.

Lemma populate_later data : keeps later (populate env data).
Proof. unfold later. solve_keeps; sends_leaf. Qed.

Lemma clearAll_first c w :
  ∃ rest,
    requests (clearAll env c w).2 = requests w ++ ListDocuments c :: rest.
Proof.
  unfold clearAll, bind. rewrite listDocuments_eval. simpl.
  destruct (fate _) as [|e|]; simpl; [|by exists []|by exists []].
  eexists. rewrite promiseAll_requests. simpl. by rewrite <- app_assoc.
Qed.

(** A call that passes the guard sends the first listing. *)
Lemma seed_first_request data w :
  isSeeding w = false →
  ∃ rest,
    requests (seed env data w).2
    = requests w ++ ListDocuments categoriesCollectionId :: rest.
Proof.
  intros Hw. rewrite seed_idle by done.
  set (wa := set_console (console w ++ [Clearing]) (set_isSeeding true w)).
  destruct (clearAll_first categoriesCollectionId wa) as (rest0 & Hfirst).
  assert (Hrest : later (clearAll env categoriesCollectionId wa).2
            (tryFinally
               (tryCatch (clear env;; populate env data)
                  (λ err, log (SeedError err)))
               (assign_isSeeding false) (set_isSeeding true w)).2).
  { etrans; [|apply (tryFinally_after later)].
    - etrans; [|apply (tryCatch_after later)].
      + etrans; [|apply (bind_after later)].
        * unfold clear. unfold bind at 1, log at 1. fold wa.
          apply (bind_after later). intros _.
          repeat keeps_step;
            first [ apply (clearingStep_later _ _ (clearAll_step env _))
                  | apply (clearingStep_later _ _ (clearStorage_step env)) ].
        * intros _. apply populate_later.
      + intros e w0. exists []. by rewrite app_nil_r.
    - intros w0. exists []. by rewrite app_nil_r. }
  destruct Hrest as (rs & Hreq & _).
  exists (rest0 ++ rs). rewrite Hreq, Hfirst. simpl.
  by rewrite <- app_assoc.
Qed.

(** A call that passed the guard and has ended has cleared the flag. *)
Lemma seed_releases data w :
  isSeeding w = false → (seed env data w).1 ≠ Pending →
  isSeeding (seed env data w).2 = false.
Proof.
  intros Hw. rewrite seed_idle by done. unfold tryFinally, tryCatch.
  destruct ((clear env;; populate env data) (set_isSeeding true w))
    as [[[]|e|] w1]; simpl; done.
Qed.
End Later.

(** X10: a run after a run.  Once a call of [seed] that passed the
    guard has ended, whether it completed or its clearing failed, the
    flag is down, and the next call, whatever the store does then, is
    not turned away: its first request, the listing of the categories,
    is sent. *)
Theorem seed_can_run_again env env' data data' w :
  isSeeding w = false →
  (seed env data w).1 ≠ Pending →
  let w1 := (seed env data w).2 in
  isSeeding w1 = false ∧
  ∃ rest,
    requests (seed env' data' w1).2
    = requests w1 ++ ListDocuments categoriesCollectionId :: rest.
Proof.
  intros Hw Hended w1.
  assert (Hflag : isSeeding w1 = false) by by apply seed_releases.
  split; [done|]. by apply seed_first_request.
Qed.

(** A run in which every request fails, then a run with a store that
    serves: the second run lists the categories. *)
Lemma seed_can_run_again_witness :
  let w1 := (seed failingEnv sample emptyWorld).2 in
  isSeeding w1 = false ∧
  ∃ rest,
    requests (seed servingEnv sample w1).2
    = requests w1 ++ ListDocuments categoriesCollectionId :: rest.
Proof.
  apply (seed_can_run_again failingEnv servingEnv sample sample emptyWorld);
    [reflexivity | discriminate].
Defined.

(** ** The image and the bucket (lines 67-89) *)





(** ** The line of success (lines 108-181) *)

Section Completes.
Variable env : Env.
Hypothesis Hlive : responsive env.

Lemma seedMenuItem_returns categoryMap customizationMap item w :
  (seedMenuItem env categoryMap customizationMap tt item w).1 = Returned tt.
Proof.
  destruct (uploadImageToStorage_returns env (MenuItem.image_url item) w Hlive)
    as [img Himg].
  destruct (uploadImageToStorage env (MenuItem.image_url item) w)
    as [o w1] eqn:Hup. simpl in Himg. subst o.
  rewrite (seedMenuItem_eval _ _ _ _ _ _ _ Hup).
  pose proof (Hlive (tick w1) (menuRequest categoryMap item img w1)) as Hq.
  destruct (fate _) as [|e|]; [|done|done].
  destruct (links_run env customizationMap item
              (mkDoc (nextId w1) (MenuData (menuFields categoryMap item img)))
              (created menuCollectionId
                 (MenuData (menuFields categoryMap item img)) w1) Hlive)
    as (w' & Hrun & _).
  by rewrite Hrun.
Qed.

Lemma menu_loop_returns categoryMap customizationMap items : ∀ w,
  (forOf items (seedMenuItem env categoryMap customizationMap) tt w).1
  = Returned tt.
Proof.
  induction items as [|item items IH]; intros w; [done|].
  cbn [forOf]. unfold bind.
  pose proof (seedMenuItem_returns categoryMap customizationMap item w) as Hi.
  destruct (seedMenuItem _ _ _ _ _ w) as [[[]|e|] w1]; simpl in Hi;
    [apply IH | done | done].
Qed.

(** With an environment that answers, the creation phases return, the
    line of success logged last. *)
Lemma populate_returns data w :
  ∃ w', populate env data w
        = (Returned tt, set_console (console w' ++ [SeedingComplete]) w').
Proof.
  unfold populate.
  destruct (attempt_loop env categoriesCollectionId CategoryData
              (λ (m : gmap string ID) cat id, assign m (Category.name cat) id)
              (λ cat, FailedCategory (Category.name cat))
              (categories data) ∅ w)
    as (w1 & Hcat & _); [by intros; apply Hlive|].
  destruct (attempt_loop env customizationsCollectionId CustomizationData
              (λ (m : gmap string ID) cus id,
                 assign m (Customization.name cus) id)
              (λ cus, FailedCustomization (Customization.name cus))
              (customizations data) ∅ w1)
    as (w2 & Hcus & _); [by intros; apply Hlive|].
  rewrite seedCategory_attempt, seedCustomization_attempt.
  rewrite (bind_Returned _ _ _ _ _ Hcat), (bind_Returned _ _ _ _ _ Hcus).
  match goal with
  | |- context [bind (forOf (menu data) ?b tt) _] =>
      pose proof (menu_loop_returns _ _ (menu data) w2
                  : (forOf (menu data) b tt w2).1 = _) as Hloop;
      destruct (forOf (menu data) b tt w2) as [o w3] eqn:Hrun
  end.
  simpl in Hloop. subst o. exists w3.
  by rewrite (bind_Returned _ _ _ _ _ Hrun).
Qed.

Hypothesis Hrefused : refusesCreations env.

Lemma createUnique_refused c p c' :
  keeps (same (λ w, documents w c')) (createUnique env c p).
Proof.
  intros w. rewrite createUnique_eval.
  destruct (Hrefused (tick w) c (nextId w) p) as [e He]. by rewrite He.
Qed.

Lemma populate_refused data c :
  keeps (same (λ w, documents w c)) (populate env data).
Proof.
  cbv [populate seedMenuItem seedLink seedCategory seedCustomization].
  repeat keeps_step;
    first [ apply createUnique_refused
          | apply uploadImageToStorage_documents
          | keeps_leaf ].
Qed.
End Completes.

Lemma createRejectingEnv_responsive : responsive createRejectingEnv.
Proof. intros t q. by destruct q. Qed.

(** X13: the line of success.  When the store answers every request
    and the clearing phase returns, [seed] returns and the last line of
    the console is "Seeding complete", whatever became of the
    creations: also when the store refused every one of them, and the
    collections are as the clearing left them. *)
Theorem complete_is_logged_whatever_was_created env data w :
  responsive env →
  isSeeding w = false →
  (clear env (set_isSeeding true w)).1 = Returned tt →
  let r := seed env data w in
  r.1 = Returned tt ∧
  last (console r.2) = Some SeedingComplete ∧
  (refusesCreations env →
   ∀ c, documents r.2 c = documents (clear env (set_isSeeding true w)).2 c).
Proof.
  intros Hlive Hw Hret r.
  assert (Hr : r = seed env data w) by done.
  rewrite seed_idle in Hr by done.
  destruct (clear env (set_isSeeding true w)) as [o w1] eqn:Hclear.
  simpl in Hret. subst o.
  destruct (populate_returns env Hlive data w1) as (w2 & Hpop).
  unfold tryFinally, tryCatch in Hr.
  rewrite (bind_Returned _ _ _ _ _ Hclear), Hpop in Hr.
  rewrite Hr. simpl. split; [done|]. split; [apply last_snoc|].
  intros Hrefused c.
  pose proof (populate_refused env Hrefused data c w1) as Hsame.
  by rewrite Hpop in Hsame.
Qed.

(** The scenario, with two categories in the store and a store that
    refuses every document: the run ends with "Seeding complete" and
    four empty collections. *)
Lemma complete_is_logged_whatever_was_created_witness :
  let r := seed createRejectingEnv sample stockedWorld in
  r.1 = Returned tt ∧
  last (console r.2) = Some SeedingComplete ∧
  ∀ c, documents r.2 c = [].
Proof.
  destruct (complete_is_logged_whatever_was_created createRejectingEnv sample
              stockedWorld createRejectingEnv_responsive eq_refl eq_refl)
    as (Hret & Hlast & Hdocs).
  split; [exact Hret|]. split; [exact Hlast|].
  intros c. rewrite Hdocs.
  - by destruct c.
  - intros t c' id p. by exists serverError.
Defined.

(** ** The console of a run (lines 92-187) *)

#[global] Instance logsOnly_preorder P : PreOrder (logsOnly P).
Proof.
  split.
  - intros w. exists []. by rewrite app_nil_r.
  - intros w1 w2 w3 (l1 & H1 & HP1) (l2 & H2 & HP2). exists (l1 ++ l2).
    split; [by rewrite H2, H1, <- app_assoc | by apply Forall_app].
Qed.

Ltac logs_leaf :=
  solve
    [ intros;
      cbv [keeps logsOnly issue settle log ID_unique Date_now ret throw];
      intros; simpl; repeat (case_match; simpl);
      first [ by exists []; rewrite app_nil_r
            | by eexists [_]; split; [reflexivity | repeat constructor] ] ].

Section Console.
Variable env : Env.

Lemma populate_console data w :
  ∃ warnings final,
    console (populate env data w).2 = console w ++ warnings ++ final ∧
    Forall (λ e, warning e) warnings ∧
    final = match (populate env data w).1 with
            | Returned _ => [SeedingComplete]
            | _ => []
            end.
Proof.
  assert (Hloops : keeps (logsOnly (λ e, warning e))
            (categoryMap <- forOf (categories data) (seedCategory env) ∅;
             customizationMap
               <- forOf (customizations data) (seedCustomization env) ∅;
             forOf (menu data)
               (seedMenuItem env categoryMap customizationMap) tt)).
  { solve_keeps; logs_leaf. }
  specialize (Hloops w).
  assert (Hpop : populate env data w
                 = ((categoryMap
                       <- forOf (categories data) (seedCategory env) ∅;
                     customizationMap
                       <- forOf (customizations data) (seedCustomization env) ∅;
                     forOf (menu data)
                       (seedMenuItem env categoryMap customizationMap) tt);;
                    log SeedingComplete) w).
  { unfold populate, bind.
    destruct (forOf (categories data) _ _ w) as [[cm|e|] w1]; [|done|done].
    destruct (forOf (customizations data) _ _ w1) as [[cum|e|] w2]; reflexivity. }
  rewrite Hpop.
  destruct ((categoryMap <- forOf (categories data) (seedCategory env) ∅; _) w)
    as [[[]|e|] w3] eqn:Hrun; simpl in Hloops;
    destruct Hloops as (l & Hl & Hwarn).
  - rewrite (bind_Returned _ _ _ _ _ Hrun). exists l, [SeedingComplete].
    split; [simpl; by rewrite Hl, <- app_assoc | by split].
  - rewrite (bind_Thrown _ _ _ _ _ Hrun). exists l, [].
    split; [simpl; by rewrite Hl, app_nil_r | by split].
  - rewrite (bind_Pending _ _ _ _ Hrun). exists l, [].
    split; [simpl; by rewrite Hl, app_nil_r | by split].
Qed.
End Console.

(** X14: the console of a run.  Whatever the store does, the lines that
    a call of [seed] that passes the guard adds to the console are: the
    line that announces the clearing; then warnings only, of creations
    and images that failed; then, when the call has returned,
    one last line, of success or of error, and never both; when the
    call is suspended, no last line.  The line of error follows no
    warning. *)
Theorem console_of_a_run env data w :
  isSeeding w = false →
  let r := seed env data w in
  ∃ warnings final,
    console r.2 = console w ++ Clearing :: warnings ++ final ∧
    Forall (λ e, warning e) warnings ∧
    match r.1 with
    | Returned _ =>
        final = [SeedingComplete] ∨
        ∃ e, final = [SeedError e] ∧ warnings = []
    | _ => final = []
    end.
Proof.
  intros Hw r.
  assert (Hr : r = seed env data w) by done.
  rewrite seed_idle in Hr by done.
  pose proof (clear_console env (set_isSeeding true w)) as Hclear.
  unfold tryFinally, tryCatch in Hr.
  destruct (clear env (set_isSeeding true w)) as [[[]|e|] w1] eqn:Hc;
    simpl in Hclear.
  - rewrite (bind_Returned _ _ _ _ _ Hc) in Hr.
    destruct (populate_console env data w1)
      as (warnings & final & Hcon & Hwarn & Hf).
    pose proof (populate_safe env data w1) as Hsafe.
    exists warnings, final.
    destruct (populate env data w1) as [[[]|e|] w2]; simpl in Hcon, Hf;
      [| by destruct (Hsafe e) |]; rewrite Hr; simpl.
    + split; [by rewrite Hcon, Hclear, <- app_assoc|]. split; [done|].
      by left.
    + split; [by rewrite Hcon, Hclear, <- app_assoc|]. by split.
  - rewrite (bind_Thrown _ _ _ _ _ Hc) in Hr.
    exists [], [SeedError e]. rewrite Hr. simpl.
    split; [by rewrite Hclear, <- app_assoc|]. split; [done|].
    right. by exists e.
  - rewrite (bind_Pending _ _ _ _ Hc) in Hr.
    exists [], []. rewrite Hr. simpl. by rewrite Hclear.
Qed.

(** The scenario with a store that refuses every document: the line of
    the clearing, four warnings, the line of success. *)
Lemma console_of_a_run_witness :
  let r := seed createRejectingEnv sample emptyWorld in
  ∃ warnings final,
    console r.2 = Clearing :: warnings ++ final ∧
    Forall (λ e, warning e) warnings ∧
    match r.1 with
    | Returned _ =>
        final = [SeedingComplete] ∨
        ∃ e, final = [SeedError e] ∧ warnings = []
    | _ => final = []
    end.
Proof.
  exact (console_of_a_run createRejectingEnv sample emptyWorld eq_refl).
Defined.

(** ** One fetch per menu item (lines 68 and 140-179) *)

Lemma fetches_sendsOnly w w' :
  sendsOnly (λ q, isFetch q = false) w w' → fetches w' = fetches w.
Proof.
  intros (rs & Hreq & Hrs). unfold fetches. rewrite Hreq, filter_app.
  assert (Hnone : filter (λ q, isFetch q) rs = []).
  { clear Hreq. induction rs as [|q rs IH]; [reflexivity|].
    apply Forall_cons in Hrs as [Hq Hrs].
    rewrite filter_cons_False; [by apply IH|]. rewrite Hq. by intros []. }
  by rewrite Hnone, app_nil_r.
Qed.

Section Fetches.
Variable env : Env.

Lemma uploadImageToStorage_fetches imageUrl w :
  fetches (uploadImageToStorage env imageUrl w).2
  = fetches w ++ [Fetch imageUrl].
Proof.
  assert (Hrest : sendsOnly (λ q, isFetch q = false)
                    (fetch env imageUrl w).2
                    (uploadImageToStorage env imageUrl w).2).
  { unfold uploadImageToStorage.
    etrans; [|apply (tryCatch_after (sendsOnly _))].
    - apply (bind_after (sendsOnly _)). intros response.
      solve_keeps; sends_leaf.
    - intros e. solve_keeps; sends_leaf. }
  rewrite (fetches_sendsOnly _ _ Hrest). rewrite fetch_eval.
  unfold fetches.
  destruct (fate _); simpl; rewrite filter_app;
    by rewrite filter_cons_True by done.
Qed.

Lemma seedMenuItem_fetches categoryMap customizationMap item w :
  fetches (seedMenuItem env categoryMap customizationMap tt item w).2
  = fetches w ++ [Fetch (MenuItem.image_url item)].
Proof.
  rewrite <- uploadImageToStorage_fetches. apply fetches_sendsOnly.
  unfold seedMenuItem.
  etrans; [|apply (tryCatch_after (sendsOnly _))].
  - apply (bind_after (sendsOnly _)). intros img. solve_keeps; sends_leaf.
  - intros e. solve_keeps; sends_leaf.
Qed.

Lemma menu_loop_fetches categoryMap customizationMap items : ∀ w,
  ∃ k,
    fetches
      (forOf items (seedMenuItem env categoryMap customizationMap) tt w).2
    = fetches w
        ++ ((λ item, Fetch (MenuItem.image_url item)) <$> take k items) ∧
    ((forOf items (seedMenuItem env categoryMap customizationMap) tt w).1
     = Returned tt → k = length items).
Proof.
  induction items as [|item items IH]; intros w.
  - exists 0. simpl. by rewrite app_nil_r.
  - cbn [forOf]. unfold bind.
    pose proof (seedMenuItem_fetches categoryMap customizationMap item w)
      as Hitem.
    destruct (seedMenuItem env categoryMap customizationMap tt item w)
      as [[[]|e|] w1]; cbn [snd] in Hitem.
    + destruct (IH w1) as (k & Hk & Hret). exists (S k). split.
      * rewrite Hk. rewrite Hitem. rewrite <- app_assoc. reflexivity.
      * intros Hr. by rewrite (Hret Hr).
    + exists 1. split; [|done].
      cbn [snd]. rewrite Hitem. by destruct items.
    + exists 1. split; [|done].
      cbn [snd]. rewrite Hitem. by destruct items.
Qed.

Lemma populate_fetches data w :
  ∃ k,
    fetches (populate env data w).2
    = fetches w
        ++ ((λ item, Fetch (MenuItem.image_url item)) <$> take k (menu data)) ∧
    ((populate env data w).1 = Returned tt → k = length (menu data)).
Proof.
  assert (Hcat : keeps (sendsOnly (λ q, isFetch q = false))
                   (forOf (categories data) (seedCategory env) ∅))
    by (solve_keeps; sends_leaf).
  assert (Hcus : keeps (sendsOnly (λ q, isFetch q = false))
                   (forOf (customizations data) (seedCustomization env) ∅))
    by (solve_keeps; sends_leaf).
  assert (Hnone : ∀ w0 (o : Outcome unit),
            fetches w0 = fetches w → o ≠ Returned tt →
            ∃ k,
              fetches (o, w0).2
              = fetches w
                  ++ ((λ item, Fetch (MenuItem.image_url item))
                        <$> take k (menu data)) ∧
              ((o, w0).1 = Returned tt → k = length (menu data))).
  { intros w0 o Hw0 Ho. exists 0. split; [|done].
    cbn [snd take fmap list_fmap]. by rewrite Hw0, app_nil_r. }
  specialize (Hcat w). apply fetches_sendsOnly in Hcat.
  unfold populate.
  destruct (forOf (categories data) (seedCategory env) ∅ w)
    as [[categoryMap|e|] w1] eqn:H1; cbn [snd] in Hcat.
  2: { rewrite (bind_Thrown _ _ _ _ _ H1). by apply Hnone. }
  2: { rewrite (bind_Pending _ _ _ _ H1). by apply Hnone. }
  rewrite (bind_Returned _ _ _ _ _ H1).
  specialize (Hcus w1). apply fetches_sendsOnly in Hcus.
  destruct (forOf (customizations data) (seedCustomization env) ∅ w1)
    as [[customizationMap|e|] w2] eqn:H2; cbn [snd] in Hcus.
  2: { rewrite (bind_Thrown _ _ _ _ _ H2). apply Hnone; [congruence|done]. }
  2: { rewrite (bind_Pending _ _ _ _ H2). apply Hnone; [congruence|done]. }
  rewrite (bind_Returned _ _ _ _ _ H2).
  destruct (menu_loop_fetches categoryMap customizationMap (menu data) w2)
    as (k & Hk & Hret).
  rewrite Hcus, Hcat in Hk.
  destruct (forOf (menu data) _ tt w2) as [[[]|e|] w3] eqn:H3;
    cbn [fst snd] in Hk, Hret.
  - rewrite (bind_Returned _ _ _ _ _ H3). exists k. split; [exact Hk|].
    intros _. by apply Hret.
  - rewrite (bind_Thrown _ _ _ _ _ H3). exists k. by split.
  - rewrite (bind_Pending _ _ _ _ H3). exists k. by split.
Qed.
End Fetches.

(** X15: one fetch per menu item.  The creation phases fetch the images
    of the menu items in the order of the dataset, each one once, and
    fetch nothing else: whatever the store does, the fetches they send
    are those of the first items of the dataset; and when every request
    is answered, those of all the items, whichever creations and images
    failed on the way. *)
Theorem each_image_fetched_once env data w :
  let urls := (λ item, Fetch (MenuItem.image_url item)) <$> menu data in
  (∃ k, fetches (populate env data w).2 = fetches w ++ take k urls) ∧
  (responsive env → fetches (populate env data w).2 = fetches w ++ urls).
Proof.
  intros urls. destruct (populate_fetches env data w) as (k & Hk & Hret).
  split.
  - exists k. subst urls. by rewrite <- fmap_take.
  - intros Hlive. destruct (populate_returns env Hlive data w) as (w' & Hpop).
    rewrite Hk, Hret by (by rewrite Hpop). by rewrite firstn_all.
Qed.

(** The scenario with an image host that is broken: the one image is
    fetched all the same. *)
Lemma each_image_fetched_once_witness :
  fetches (populate brokenImagesEnv sample emptyWorld).2
  = [Fetch "https://static.example.com/img/margherita.png"].
Proof.
  apply (proj2 (each_image_fetched_once brokenImagesEnv sample emptyWorld)).
  by intros t q.
Defined.
